(** * A shallow embedding of the [Deck] class of block52/typescript-deck

    The development follows [deck.ts] and [types.ts]:
    - JavaScript strings are [string]s (characters are code units; only
      ASCII code units can match the mnemonic pattern, also under [/i]);
    - JavaScript numbers that hold integers are [Z] (the double-precision
      rounding above 2^53 is outside the model);
    - an array is a list of slots that may hold [undefined], together with
      the properties stored under keys that are not array indices;
    - a method is a computation on the object's state that may throw, the
      state surviving the exception. *)

From Stdlib Require Import ZArith String Ascii List Lia DecimalString DecimalPos.
From stdpp Require Import base option list gmap strings.

Open Scope Z_scope.

(** ** Exceptions and results *)

Inductive exn : Type :=
| Error (message : string)      (* [throw new Error(message)] *)
| TypeError.                    (* a property read on [undefined] *)

Inductive result (A : Type) : Type :=
| Ok (a : A)
| Throw (e : exn).
Arguments Ok {A} a.
Arguments Throw {A} e.

(** ** String primitives of the runtime *)

Module JsString.

Definition code (c : ascii) : N := N_of_ascii c.

Definition is_lower (c : ascii) : bool :=
  ((97 <=? code c) && (code c <=? 122))%N.

Definition is_digit (c : ascii) : bool :=
  ((48 <=? code c) && (code c <=? 57))%N.

Definition toUpperCase_char (c : ascii) : ascii :=
  if is_lower c then ascii_of_N (code c - 32) else c.

(** [s.toUpperCase()] *)
Fixpoint toUpperCase (s : string) : string :=
  match s with
  | EmptyString => EmptyString
  | String c s' => String (toUpperCase_char c) (toUpperCase s')
  end.

(** [s.startsWith(p)] *)
Definition startsWith (s p : string) : bool := String.prefix p s.

(** [s.endsWith(p)] *)
Definition endsWith (s p : string) : bool :=
  (String.length p <=? String.length s)%nat &&
  String.eqb (String.substring (String.length s - String.length p) (String.length p) s) p.

(** [s.substring(a, b)] for [a <= b <= s.length] *)
Definition substring (a b : nat) (s : string) : string :=
  String.substring a (b - a) s.

(** [s.split(sep)] for a one-character separator: one more piece than
    there are separators, so [split sep ""] is [[""]]. *)
Fixpoint split (sep : ascii) (s : string) : list string :=
  match s with
  | EmptyString => [EmptyString]
  | String c s' =>
      if Ascii.eqb c sep then EmptyString :: split sep s'
      else match split sep s' with
           | t :: ts => String c t :: ts
           | [] => [String c EmptyString]
           end
  end.

(** [pieces.join(sep)] *)
Definition join (sep : string) (pieces : list string) : string :=
  String.concat sep pieces.

(** [n.toString()] for an integer [n]: decimal digits, with a leading
    minus sign for a negative number (the exponent form the runtime uses
    from 10^21 on is outside the model). *)
Definition Number_toString (n : Z) : string :=
  NilZero.string_of_int (Z.to_int n).

Definition digit_value (c : ascii) : Z := Z.of_N (code c) - 48.

Fixpoint parseInt_from (acc : Z) (s : string) : Z :=
  match s with
  | EmptyString => acc
  | String c s' =>
      if is_digit c then parseInt_from (10 * acc + digit_value c) s' else acc
  end.

(** [parseInt(s, 10)] on a string that starts with a digit: the value of
    its longest prefix of digits.  The one call site passes a string the
    pattern has matched against [[0-9]+], so the sign, white space and
    [NaN] cases of the primitive do not arise. *)
Definition parseInt (s : string) : Z := parseInt_from 0 s.

End JsString.

(** ** types.ts *)

(** [enum SUIT]: a numeric enum, its members are numbers at run time. *)
Module SUIT.
Definition CLUBS : Z := 1.
Definition DIAMONDS : Z := 2.
Definition HEARTS : Z := 3.
Definition SPADES : Z := 4.
End SUIT.

Record Card : Type := mkCard {
  suit : Z;
  rank : Z;
  value : Z;
  mnemonic : string
}.

#[global] Instance Card_eq_dec : EqDecision Card.
Proof. solve_decision. Defined.

(** ** The mnemonic codec *)

(** [getCardMnemonic(suit, rank)].  [rankMap] and [suitMap] are object
    literals read at a number; a key that is absent reads [undefined], which
    the template literal renders as the word "undefined". *)
Definition rankMap (rankNum : Z) : option string :=
  if rankNum =? 1 then Some "A"
  else if rankNum =? 11 then Some "J"
  else if rankNum =? 12 then Some "Q"
  else if rankNum =? 13 then Some "K"
  else None.

Definition suitMap (s : Z) : option string :=
  if s =? SUIT.CLUBS then Some "C"
  else if s =? SUIT.DIAMONDS then Some "D"
  else if s =? SUIT.HEARTS then Some "H"
  else if s =? SUIT.SPADES then Some "S"
  else None.

Definition getCardMnemonic (suit rank : Z) : string :=
  let rankNum := rank in
  let rankStr :=
    match rankMap rankNum with
    | Some r => r
    | None => JsString.Number_toString rankNum
    end in
  let suitStr := default "undefined" (suitMap suit) in
  rankStr +:+ suitStr.

(** The pattern [/^([AJQKajqk]|[0-9]+)([CDHS])$/i]. *)
Module Pattern.

(** [[AJQKajqk]] *)
Definition rank_letter (c : ascii) : bool :=
  let u := JsString.toUpperCase_char c in
  Ascii.eqb u "A" || Ascii.eqb u "J" || Ascii.eqb u "Q" || Ascii.eqb u "K".

(** [[CDHS]], which the [i] flag makes match either case *)
Definition suit_letter (c : ascii) : bool :=
  let u := JsString.toUpperCase_char c in
  Ascii.eqb u "C" || Ascii.eqb u "D" || Ascii.eqb u "H" || Ascii.eqb u "S".

(** [[0-9]*], greedy: the digits consumed and what is left *)
Fixpoint digits (s : string) : string * string :=
  match s with
  | String c s' =>
      if JsString.is_digit c
      then let '(ds, rest) := digits s' in (String c ds, rest)
      else (EmptyString, s)
  | EmptyString => (EmptyString, EmptyString)
  end.

(** The second alternative, [[0-9]+] then [[CDHS]] then the end.  Giving
    back a digit never helps: the character after would be a digit, which
    is no suit letter. *)
Definition numeral_then_suit (s : string) : option (string * string) :=
  match digits s with
  | (String d ds, String c EmptyString) =>
      if suit_letter c then Some (String d ds, String c EmptyString) else None
  | _ => None
  end.

(** [s.match(pattern)]: the two groups when the whole string matches. *)
Definition exec (s : string) : option (string * string) :=
  match s with
  | String a (String b EmptyString) =>
      if rank_letter a && suit_letter b
      then Some (String a EmptyString, String b EmptyString)
      else numeral_then_suit s
  | _ => numeral_then_suit s
  end.

End Pattern.

(** [Deck.fromString(mnemonic)], with its two [switch] statements first *)
Definition rank_switch (rankStr : string) : Z :=
  if String.eqb rankStr "A" then 1
  else if String.eqb rankStr "J" then 11
  else if String.eqb rankStr "Q" then 12
  else if String.eqb rankStr "K" then 13
  else JsString.parseInt rankStr.

Definition suit_switch (suitChar : string) : result Z :=
  if String.eqb suitChar "C" then Ok SUIT.CLUBS
  else if String.eqb suitChar "D" then Ok SUIT.DIAMONDS
  else if String.eqb suitChar "H" then Ok SUIT.HEARTS
  else if String.eqb suitChar "S" then Ok SUIT.SPADES
  else Throw (Error ("Invalid suit character: " +:+ suitChar)).

Definition fromString (mnemonic : string) : result Card :=
  match Pattern.exec mnemonic with
  | None => Throw (Error ("Invalid card mnemonic: " +:+ mnemonic))
  | Some (g1, g2) =>
      let rankStr := JsString.toUpperCase g1 in
      let suitChar := JsString.toUpperCase g2 in
      let rank := rank_switch rankStr in
      match suit_switch suitChar with
      | Throw e => Throw e
      | Ok suit =>
          Ok {| suit := suit;
                rank := rank;
                value := 13 * (suit - 1) + (rank - 1);
                mnemonic := mnemonic |}
      end
  end.

(** ** Arrays

    An array has its indexed slots, each holding a value or [undefined]
    ([None]), and the properties stored under other keys.  The only such
    keys this program can produce are negative integers (a negative swap
    position in [shuffle]).  A property assigned [undefined] reads like an
    absent one, and no code lists the keys, so it is dropped. *)

Module JsArray.

Record t (A : Type) : Type := mk {
  elems : list (option A);
  props : gmap Z A
}.
Arguments mk {A} _ _.
Arguments elems {A} _.
Arguments props {A} _.

Definition empty {A} : t A := mk [] ∅.

(** [a.length] *)
Definition length {A} (a : t A) : nat := List.length (elems a).

(** [a[k]]: a slot inside the bounds, a property under a negative key,
    [undefined] anywhere else. *)
Definition get {A} (a : t A) (k : Z) : option A :=
  if k <? 0 then props a !! k
  else mjoin (elems a !! Z.to_nat k).

(** [a[k] = v]: a write past the end extends the array with holes (which
    read [undefined]); a negative key becomes a property. *)
Definition set {A} (a : t A) (k : Z) (v : option A) : t A :=
  if k <? 0 then
    mk (elems a) (match v with
                  | Some x => <[k := x]> (props a)
                  | None => delete k (props a)
                  end)
  else if (Z.to_nat k <? List.length (elems a))%nat then
    mk (<[Z.to_nat k := v]> (elems a)) (props a)
  else
    mk (elems a ++ replicate (Z.to_nat k - List.length (elems a)) None ++ [v])
       (props a).

(** [a.push(x)] *)
Definition push {A} (a : t A) (x : A) : t A :=
  mk (elems a ++ [Some x]) (props a).

(** [[a[i], a[j]] = [a[j], a[i]]]: both reads come first, then the write
    to [a[i]], then the write to [a[j]]. *)
Definition swap {A} (a : t A) (i j : Z) : t A :=
  let vj := get a j in
  let vi := get a i in
  set (set a i vj) j vi.

End JsArray.

(** ** The Deck object *)

Definition ZERO_HASH : string :=
  "0x0000000000000000000000000000000000000000000000000000000000000000".

Record Deck : Type := mkDeck {
  cards : JsArray.t Card;
  hash : string;
  seedHash : string;
  top : Z
}.

Definition set_cards (f : JsArray.t Card → JsArray.t Card) (d : Deck) : Deck :=
  mkDeck (f (cards d)) (hash d) (seedHash d) (top d).
Definition set_hash (h : string) (d : Deck) : Deck :=
  mkDeck (cards d) h (seedHash d) (top d).
Definition set_seedHash (h : string) (d : Deck) : Deck :=
  mkDeck (cards d) (hash d) h (top d).
Definition set_top (t : Z) (d : Deck) : Deck :=
  mkDeck (cards d) (hash d) (seedHash d) t.

(** A method body: it runs on the object, returns or throws, and leaves the
    object in the state it reached. *)
Definition M (A : Type) : Type := Deck → result A * Deck.

Definition ret {A} (a : A) : M A := λ d, (Ok a, d).
Definition throw {A} (e : exn) : M A := λ d, (Throw e, d).
Definition bind {A B} (m : M A) (k : A → M B) : M B :=
  λ d, match m d with
       | (Ok a, d') => k a d'
       | (Throw e, d') => (Throw e, d')
       end.
Definition this : M Deck := λ d, (Ok d, d).
Definition update (f : Deck → Deck) : M unit := λ d, (Ok tt, f d).
Definition lift {A} (r : result A) : M A := λ d, (r, d).

Notation "'let*' x := m 'in' k" := (bind m (λ x, k))
  (at level 10, x name, m at level 100, k at level 200).
Notation "m ;; k" := (bind m (λ _, k))
  (at level 100, k at level 200, right associativity).

Section Deck.

(** [createHash("sha256").update(s).digest("hex")] of Node's [crypto]
    module. *)
Variable sha256_hex : string → string.

(** [createHash()] *)
Definition createHash : M unit :=
  let* d := this in
  match mapM (fmap mnemonic) (JsArray.elems (cards d)) with
  | None => throw TypeError
  | Some cardMnemonics =>
      let cardsAsString := JsString.join "-" cardMnemonics in
      update (set_hash (sha256_hex cardsAsString))
  end.

(** [initStandard52()] *)
Definition standardCard (suit rank : Z) : Card :=
  {| suit := suit;
     rank := rank;
     value := 13 * (suit - 1) + (rank - 1);
     mnemonic := getCardMnemonic suit rank |}.

Definition initStandard52 : M unit :=
  update (set_cards (λ _, JsArray.empty)) ;;
  update (set_cards (λ a,
    foldl (λ a suit,
             foldl (λ a rank, JsArray.push a (standardCard suit rank))
                   a (seqZ 1 13))
          a (seqZ SUIT.CLUBS 4))) ;;
  createHash.

(** The loop of the constructor over the pieces of the string, [i] being
    the index of the first piece of [mnemonics]. *)
Fixpoint restore_loop (i : nat) (mnemonics : list string) : M unit :=
  match mnemonics with
  | [] => ret tt
  | m :: rest =>
      let* m' :=
        (if JsString.startsWith m "[" && JsString.endsWith m "]"
         then update (set_top (Z.of_nat i)) ;;
              ret (JsString.substring 1 (String.length m - 1) m)
         else ret m) in
      let* c := lift (fromString m') in
      update (set_cards (λ a, JsArray.push a c)) ;;
      restore_loop (S i) rest
  end.

(** The field initialisers: [cards = []], [hash = ""], [top = 0];
    [seedHash] has none and is assigned at the end of the constructor. *)
Definition blank : Deck := mkDeck JsArray.empty "" "" 0.

(** [if (deck)]: an absent argument and the empty string are both falsy. *)
Definition truthy (deck : option string) : option string :=
  match deck with
  | Some EmptyString => None
  | other => other
  end.

Definition constructor (deck : option string) : M unit :=
  match truthy deck with
  | Some deck =>
      let mnemonics := JsString.split "-" deck in
      if negb (List.length mnemonics =? 52)%nat
      then throw (Error "Deck must contain 52 cards.")
      else update (set_cards (λ _, JsArray.empty)) ;;
           restore_loop 0 mnemonics
  | None => initStandard52
  end ;;
  update (set_hash ZERO_HASH) ;;
  createHash ;;
  update (set_seedHash ZERO_HASH).

(** [new Deck(deck)]: the object when the constructor returns. *)
Definition new_Deck (deck : option string) : result Deck :=
  match constructor deck blank with
  | (Ok _, d) => Ok d
  | (Throw e, _) => Throw e
  end.

(** The Fisher-Yates loop, [for (let i = length - 1; i > 0; i--)], entered
    at [i]; [seed[i]] is inside the seed by the length check before. *)
Fixpoint shuffle_loop (seed : list Z) (i : nat) (a : JsArray.t Card)
  : JsArray.t Card :=
  match i with
  | O => a
  | S i' =>
      let j := Z.rem (default 0 (seed !! i)) (Z.of_nat i + 1) in
      shuffle_loop seed i' (JsArray.swap a (Z.of_nat i) j)
  end.

(** [shuffle(seed)].  [random k] stands for the value of
    [Math.floor(1000000 * Math.random())] at the [k]-th draw of the call. *)
Definition shuffle (random : nat → Z) (seed : option (list Z)) : M unit :=
  let* d := this in
  let n := JsArray.length (cards d) in
  let seed :=
    match seed with
    | Some (x :: s) => x :: s
    | _ => random <$> seq 0 n
    end in
  if negb (List.length seed =? n)%nat
  then throw (Error ("Seed length (" +:+
                     JsString.Number_toString (Z.of_nat (List.length seed)) +:+
                     ") must match cards length (" +:+
                     JsString.Number_toString (Z.of_nat n) +:+ ")"))
  else
    let seedAsString := JsString.join "-" (JsString.Number_toString <$> seed) in
    update (set_seedHash (sha256_hex seedAsString)) ;;
    update (set_cards (shuffle_loop seed (n - 1))) ;;
    createHash.

(** [getNext()]: [this.cards[this.top++]] *)
Definition getNext : M (option Card) :=
  let* d := this in
  update (set_top (top d + 1)) ;;
  ret (JsArray.get (cards d) (top d)).

(** [Array.from({ length: n }, f)] for a callback that ignores its
    arguments *)
Fixpoint Array_from {A} (n : nat) (f : M A) : M (list A) :=
  match n with
  | O => ret []
  | S n' => let* x := f in let* xs := Array_from n' f in ret (x :: xs)
  end.

(** [deal(amount)] *)
Definition deal (amount : Z) : M (list (option Card)) :=
  let* d := this in
  update (set_top (top d + amount)) ;;
  Array_from (Z.to_nat amount) getNext.

(** [toJson()]: the [cards] array itself *)
Definition toJson (d : Deck) : JsArray.t Card := cards d.

(** [toString()] *)
Fixpoint toString_loop (t : Z) (i : nat) (slots : list (option Card))
  : result (list string) :=
  match slots with
  | [] => Ok []
  | slot :: rest =>
      match slot with
      | None => Throw TypeError
      | Some card =>
          let piece :=
            if Z.of_nat i =? t then "[" +:+ mnemonic card +:+ "]"
            else mnemonic card in
          match toString_loop t (S i) rest with
          | Ok mnemonics => Ok (piece :: mnemonics)
          | Throw e => Throw e
          end
      end
  end.

Definition toString (d : Deck) : result string :=
  match toString_loop (top d) 0 (JsArray.elems (cards d)) with
  | Ok mnemonics => Ok (JsString.join "-" mnemonics)
  | Throw e => Throw e
  end.

End Deck.

(** ** Reference notions used in the statements *)

(** [n] successive calls of a method, with the values they return. *)
Fixpoint calls {A} (n : nat) (m : M A) : M (list A) :=
  match n with
  | O => ret []
  | S n' => let* x := m in let* xs := calls n' m in ret (x :: xs)
  end.

(** The 52 cards in the order of a new deck: suits in the order of the
    enumeration, ranks 1 to 13 within each suit. *)
Definition standard52 : list Card :=
  s ← [SUIT.CLUBS; SUIT.DIAMONDS; SUIT.HEARTS; SUIT.SPADES];
  r ← [1; 2; 3; 4; 5; 6; 7; 8; 9; 10; 11; 12; 13];
  [standardCard s r].

(** The content hash of a sequence of cards. *)
Definition content_hash (sha256_hex : string → string) (l : list Card) : string :=
  sha256_hex (JsString.join "-" (mnemonic <$> l)).

(** The deck [new Deck()] builds. *)
Definition fresh (sha256_hex : string → string) : Deck :=
  {| cards := JsArray.mk (Some <$> standard52) ∅;
     hash := content_hash sha256_hex standard52;
     seedHash := ZERO_HASH;
     top := 0 |}.

Fixpoint all_chars (P : ascii → bool) (s : string) : bool :=
  match s with
  | EmptyString => true
  | String c s' => P c && all_chars P s'
  end.

(** The characters a matching string is made of. *)
Definition token_char (c : ascii) : bool :=
  JsString.is_digit c || Pattern.rank_letter c || Pattern.suit_letter c.

Definition not_dash (c : ascii) : bool := negb (Ascii.eqb c "-").

(** The pieces [toString] joins: the mnemonics in stored order, the one at
    index [t] in brackets; [i] is the index of the first card of [l]. *)
Definition piece (t : Z) (i : nat) (c : Card) : string :=
  if Z.of_nat i =? t then "[" +:+ mnemonic c +:+ "]" else mnemonic c.

Fixpoint pieces (t : Z) (i : nat) (l : list Card) : list string :=
  match l with
  | [] => []
  | c :: l' => piece t i c :: pieces t (S i) l'
  end.

(** A card the codec has produced: decoding its mnemonic gives it back. *)
Definition decodable (c : Card) : Prop := fromString (mnemonic c) = Ok c.

Ltac case_bounds :=
  repeat match goal with
         | |- context [?a <=? ?b] => destruct (Z.leb_spec a b)
         | |- context [?a <? ?b] => destruct (Z.ltb_spec a b)
         end;
  cbn [andb]; try reflexivity; try lia.

(** The round trip as the specification states it, for one deck. *)
Definition roundtrip (sha : string → string) (d : Deck) : Prop :=
  ∃ s d', toString d = Ok s ∧ new_Deck sha (Some s) = Ok d'
          ∧ JsArray.elems (cards d') = JsArray.elems (cards d)
          ∧ top d' = top d
          ∧ hash d' = hash d.

(** The permutation as the specification states it: for [i] from 51 down
    to 1, swap the cards at the positions [i] and [j = seed[i] mod (i+1)]. *)
Definition swap_positions (l : list Card) (i j : nat) : list Card :=
  match l !! i, l !! j with
  | Some x, Some y => <[j := x]> (<[i := y]> l)
  | _, _ => l
  end.

Definition fisher_yates_step (seed : list Z) (l : list Card) (i : nat) : list Card :=
  swap_positions l i (Z.to_nat (default 0 (seed !! i) `mod` (Z.of_nat i + 1))).

Definition fisher_yates (seed : list Z) (l : list Card) : list Card :=
  foldl (fisher_yates_step seed) l (reverse (seq 1 51)).

(** What the specification says of [shuffle(seed)] on a deck holding [l]. *)
Definition shuffles_as_stated (sha : string → string) (random : nat → Z)
    (seed : list Z) (d : Deck) (l : list Card) : Prop :=
  ∃ d', shuffle sha random (Some seed) d = (Ok tt, d')
        ∧ JsArray.elems (cards d') = Some <$> fisher_yates seed l
        ∧ hash d' = content_hash sha (fisher_yates seed l).

(** The (suit, rank) pairs of a sequence of cards. *)
Definition pairs (l : list Card) : list (Z * Z) := (λ c, (suit c, rank c)) <$> l.

(** A permutation of the standard deck: each of the 52 pairs once. *)
Definition full_deck (l : list Card) : Prop := pairs l ≡ₚ pairs standard52.

(** The [cards] field holds exactly 52 cards that form such a permutation
    (and the array carries nothing else). *)
Definition holds_full_deck (d : Deck) : Prop :=
  ∃ l, cards d = JsArray.mk (Some <$> l) ∅ ∧ List.length l = 52%nat ∧ full_deck l.

(** The values stored under the keys that are not indices. *)
Definition stray {A} (m : gmap Z A) : list A := snd <$> map_to_list m.

(** Every card the array object holds, in a slot or under another key. *)
Definition contents (a : JsArray.t Card) : list Card :=
  omap id (JsArray.elems a) ++ stray (JsArray.props a).

(** The invariant of the object under [shuffle]: 52 slots, and the cards
    held anywhere in the array object are the standard deck. *)
Definition conserved (d : Deck) : Prop :=
  JsArray.length (cards d) = 52%nat ∧ full_deck (contents (cards d)).

(** A key the array can be written at without growing. *)
Definition in_domain {A} (a : JsArray.t A) (k : Z) : Prop :=
  k < Z.of_nat (JsArray.length a).

(** One call of a method that can change the object. *)
Inductive call (sha : string → string) : Deck → Deck → Prop :=
| call_shuffle random seed d : call sha d (snd (shuffle sha random seed d))
| call_getNext d : call sha d (snd (getNext d))
| call_deal amount d : call sha d (snd (deal amount d)).

(** The decks a program can hold: built by the constructor, then used
    through the methods. *)
Definition reachable (sha : string → string) (d : Deck) : Prop :=
  ∃ arg d0, new_Deck sha arg = Ok d0 ∧ rtc (call sha) d0 d.

(** What the constructor establishes and every method keeps: 52 slots, only
    decodable cards in the array object, and, while every slot is defined,
    the hash of the stored order. *)
Definition well_kept (sha : string → string) (d : Deck) : Prop :=
  JsArray.length (cards d) = 52%nat
  ∧ Forall decodable (contents (cards d))
  ∧ ∀ l, JsArray.elems (cards d) = Some <$> l → hash d = content_hash sha l.

(** ** Reference notions for the further properties *)

(** The characters of the pattern's three classes, written out. *)
Definition rank_letters : list ascii :=
  ["A"; "J"; "Q"; "K"; "a"; "j"; "q"; "k"]%char.

Definition suit_letters : list ascii :=
  ["C"; "D"; "H"; "S"; "c"; "d"; "h"; "s"]%char.

Definition digit_chars : list ascii :=
  ["0"; "1"; "2"; "3"; "4"; "5"; "6"; "7"; "8"; "9"]%char.

(** A string of the form the pattern describes: one rank letter or a
    non-empty numeral, then one suit letter. *)
Definition well_formed (m : string) : Prop :=
  ∃ g c, m = g +:+ String c EmptyString ∧ c ∈ suit_letters
         ∧ ((∃ a, g = String a EmptyString ∧ a ∈ rank_letters)
            ∨ (g ≠ EmptyString
               ∧ Forall (λ x, x ∈ digit_chars) (list_ascii_of_string g))).

(** The two tests the constructor makes on a piece of the string, and the
    piece it then decodes. *)
Definition bracketed (m : string) : bool :=
  JsString.startsWith m "[" && JsString.endsWith m "]".

Definition unbracket (m : string) : string :=
  if bracketed m then JsString.substring 1 (String.length m - 1) m else m.

(** The cards the pieces decode to in order, or the error of the first
    piece that does not decode. *)
Fixpoint decode_pieces (ms : list string) : result (list Card) :=
  match ms with
  | [] => Ok []
  | m :: rest =>
      match fromString (unbracket m) with
      | Throw e => Throw e
      | Ok c =>
          match decode_pieces rest with
          | Ok l => Ok (c :: l)
          | Throw e => Throw e
          end
      end
  end.

(** The index of the last bracketed piece, [t] when there is none; [i] is
    the index of the first piece of [ms]. *)
Fixpoint cursor_after (t : Z) (i : nat) (ms : list string) : Z :=
  match ms with
  | [] => t
  | m :: rest => cursor_after (if bracketed m then Z.of_nat i else t) (S i) rest
  end.

(** The number of hyphens of a string. *)
Fixpoint dashes (s : string) : nat :=
  match s with
  | EmptyString => 0
  | String c s' => ((if Ascii.eqb c "-" then 1 else 0) + dashes s')%nat
  end.



(** * Properties *)

(** ** The codec *)

Example fromString_AS :
  fromString "AS" = Ok (mkCard 4 1 39 "AS").
Proof. reflexivity. Qed.

Example fromString_10H :
  fromString "10H" = Ok (mkCard 3 10 35 "10H").
Proof. reflexivity. Qed.

Example fromString_XX :
  fromString "XX" = Throw (Error "Invalid card mnemonic: XX").
Proof. reflexivity. Qed.

Example fromString_empty :
  fromString "" = Throw (Error "Invalid card mnemonic: ").
Proof. reflexivity. Qed.

Example getCardMnemonic_10H : getCardMnemonic SUIT.HEARTS 10 = "10H".
Proof. reflexivity. Qed.

Lemma small_range (lo hi x : Z) (P : Z → Prop) :
  lo ≤ x ≤ hi → Forall P (seqZ lo (hi - lo + 1)) → P x.
Proof.
  intros Hx HP. rewrite Forall_forall in HP. apply HP.
  apply elem_of_seqZ. lia.
Qed.

(** C4: for every suit in 1..4 and rank in 1..13, [fromString] maps the
    mnemonic [getCardMnemonic suit rank] to the card with that suit, that
    rank and the value [13*(suit-1) + (rank-1)]; encoding the decoded pair
    gives the mnemonic back, so the two are inverse on the 52 mnemonics. *)
Theorem fromString_getCardMnemonic (s r : Z) :
  1 ≤ s ≤ 4 → 1 ≤ r ≤ 13 →
  fromString (getCardMnemonic s r)
    = Ok {| suit := s; rank := r; value := 13 * (s - 1) + (r - 1);
            mnemonic := getCardMnemonic s r |}
  ∧ (∀ c, fromString (getCardMnemonic s r) = Ok c →
          (suit c, rank c, value c) = (s, r, 13 * (s - 1) + (r - 1))
          ∧ getCardMnemonic (suit c) (rank c) = getCardMnemonic s r).
Proof.
  intros Hs Hr.
  assert (E : fromString (getCardMnemonic s r)
              = Ok {| suit := s; rank := r; value := 13 * (s - 1) + (r - 1);
                      mnemonic := getCardMnemonic s r |}).
  { revert r Hr. pattern s. apply (small_range 1 4 s); [exact Hs|].
    repeat constructor; intros r Hr; pattern r;
      (apply (small_range 1 13 r); [exact Hr|]);
      repeat constructor; reflexivity. }
  split; [exact E|].
  intros c Hc. rewrite E in Hc. injection Hc as <-. simpl. split; reflexivity.
Qed.

Lemma fromString_getCardMnemonic_witness :
  fromString (getCardMnemonic SUIT.HEARTS 10) = Ok (mkCard SUIT.HEARTS 10 35 "10H")
  ∧ (∀ c, fromString (getCardMnemonic SUIT.HEARTS 10) = Ok c →
          (suit c, rank c, value c) = (SUIT.HEARTS, 10, 35)
          ∧ getCardMnemonic (suit c) (rank c) = "10H").
Proof.
  apply (fromString_getCardMnemonic SUIT.HEARTS 10).
  - unfold SUIT.HEARTS. lia.
  - lia.
Defined.

(** *** What a match of the pattern looks like *)

Lemma all_chars_app P s1 s2 :
  all_chars P (s1 +:+ s2) = all_chars P s1 && all_chars P s2.
Proof.
  induction s1 as [|c s1 IH]; simpl; [reflexivity|].
  rewrite IH. apply andb_assoc.
Qed.

Lemma all_chars_weaken (P Q : ascii → bool) s :
  (∀ c, P c = true → Q c = true) → all_chars P s = true → all_chars Q s = true.
Proof.
  intros HPQ. induction s as [|c s IH]; simpl; [reflexivity|].
  intros [Hc Hs]%andb_true_iff. rewrite (HPQ _ Hc), (IH Hs). reflexivity.
Qed.

Lemma digits_spec s ds rest :
  Pattern.digits s = (ds, rest) →
  s = ds +:+ rest ∧ all_chars JsString.is_digit ds = true.
Proof.
  revert ds rest. induction s as [|c s IH]; simpl; intros ds rest E.
  - injection E as <- <-. split; reflexivity.
  - destruct (JsString.is_digit c) eqn:Hc.
    + destruct (Pattern.digits s) as [ds' rest'].
      injection E as <- <-. destruct (IH _ _ eq_refl) as [-> Hds].
      simpl. rewrite Hc, Hds. split; reflexivity.
    + injection E as <- <-. split; reflexivity.
Qed.

Lemma numeral_then_suit_spec s g1 g2 :
  Pattern.numeral_then_suit s = Some (g1, g2) →
  ∃ c, g2 = String c EmptyString ∧ s = g1 +:+ g2 ∧ Pattern.suit_letter c = true
       ∧ g1 ≠ EmptyString ∧ all_chars JsString.is_digit g1 = true.
Proof.
  unfold Pattern.numeral_then_suit.
  destruct (Pattern.digits s) as [ds rest] eqn:E.
  apply digits_spec in E as [-> Hds].
  destruct ds as [|d ds]; [discriminate|].
  destruct rest as [|c [|? ?]]; try discriminate.
  destruct (Pattern.suit_letter c) eqn:Hc; [|discriminate].
  intros [= <- <-]. exists c. repeat split; try assumption. discriminate.
Qed.

(** The groups of a match: a suit letter after either one rank letter or a
    non-empty numeral. *)
Lemma exec_spec s g1 g2 :
  Pattern.exec s = Some (g1, g2) →
  ∃ c, g2 = String c EmptyString ∧ s = g1 +:+ g2 ∧ Pattern.suit_letter c = true
       ∧ ((∃ a, g1 = String a EmptyString ∧ Pattern.rank_letter a = true)
          ∨ (g1 ≠ EmptyString ∧ all_chars JsString.is_digit g1 = true)).
Proof.
  intros E.
  assert (Hnum : Pattern.numeral_then_suit s = Some (g1, g2) →
    ∃ c, g2 = String c EmptyString ∧ s = g1 +:+ g2 ∧ Pattern.suit_letter c = true
       ∧ ((∃ a, g1 = String a EmptyString ∧ Pattern.rank_letter a = true)
          ∨ (g1 ≠ EmptyString ∧ all_chars JsString.is_digit g1 = true))).
  { intros (c & ? & ? & ? & ? & ?)%numeral_then_suit_spec. exists c. auto 10. }
  unfold Pattern.exec in E.
  destruct s as [|a [|b [|? ?]]]; auto.
  destruct (Pattern.rank_letter a && Pattern.suit_letter b) eqn:Hab; auto.
  apply andb_true_iff in Hab as [Ha Hb]. injection E as <- <-.
  exists b. repeat split; eauto.
Qed.

Lemma exec_token_chars s g1 g2 :
  Pattern.exec s = Some (g1, g2) →
  s ≠ EmptyString ∧ all_chars token_char s = true.
Proof.
  intros (c & -> & -> & Hc & Hg1)%exec_spec. split.
  - destruct g1; discriminate.
  - rewrite all_chars_app. apply andb_true_iff. split.
    + destruct Hg1 as [(a & -> & Ha)|[_ Hd]].
      * simpl. unfold token_char. rewrite Ha. rewrite orb_true_r. reflexivity.
      * revert Hd. apply all_chars_weaken. intros x Hx.
        unfold token_char. rewrite Hx. reflexivity.
    + simpl. unfold token_char. rewrite Hc. rewrite !orb_true_r. reflexivity.
Qed.

Lemma suit_switch_letter c :
  Pattern.suit_letter c = true →
  ∃ s, suit_switch (JsString.toUpperCase (String c EmptyString)) = Ok s ∧ 1 ≤ s ≤ 4.
Proof.
  destruct c as [[] [] [] [] [] [] [] []]; intros H; try discriminate H;
    vm_compute; eexists; (split; [reflexivity|split; discriminate]).
Qed.

(** [fromString] either returns a card that carries the input as its
    mnemonic, or throws the one error of the pattern test; the [default]
    of the suit [switch] is never reached. *)
Lemma fromString_cases m :
  (∃ g1 g2 s, Pattern.exec m = Some (g1, g2) ∧ 1 ≤ s ≤ 4 ∧
     fromString m =
       Ok {| suit := s; rank := rank_switch (JsString.toUpperCase g1);
             value := 13 * (s - 1) + (rank_switch (JsString.toUpperCase g1) - 1);
             mnemonic := m |})
  ∨ (Pattern.exec m = None ∧
     fromString m = Throw (Error ("Invalid card mnemonic: " +:+ m))).
Proof.
  unfold fromString. destruct (Pattern.exec m) as [[g1 g2]|] eqn:E.
  - left. destruct (exec_spec _ _ _ E) as (c & -> & _ & Hc & _).
    destruct (suit_switch_letter c Hc) as (s & -> & Hs).
    exists g1, (String c EmptyString), s. auto.
  - right. auto.
Qed.

Lemma fromString_Ok_mnemonic m c : fromString m = Ok c → mnemonic c = m.
Proof.
  destruct (fromString_cases m) as [(g1 & g2 & s & _ & _ & ->)|[_ ->]];
    [|discriminate].
  intros [= <-]. reflexivity.
Qed.

Lemma fromString_Ok_token m c :
  fromString m = Ok c → m ≠ EmptyString ∧ all_chars token_char m = true.
Proof.
  destruct (fromString_cases m) as [(g1 & g2 & s & E & _ & _)|[_ ->]];
    [|discriminate].
  intros _. eapply exec_token_chars, E.
Qed.

Lemma fromString_Throw m e :
  fromString m = Throw e → e = Error ("Invalid card mnemonic: " +:+ m).
Proof.
  destruct (fromString_cases m) as [(g1 & g2 & s & _ & _ & ->)|[_ ->]].
  - discriminate.
  - intros [= <-]. reflexivity.
Qed.

(** C3: [fromString] throws on a string the pattern rejects, with a message
    that carries the string, but it makes no test of the numeral: "0C" and
    "14C" are accepted, as ranks 0 and 14 of clubs, with the values -1 and
    13 (the value of the ace of diamonds). *)
Theorem fromString_numeral_unchecked :
  fromString "0C" = Ok (mkCard SUIT.CLUBS 0 (-1) "0C")
  ∧ fromString "14C" = Ok (mkCard SUIT.CLUBS 14 13 "14C")
  ∧ fromString "AD" = Ok (mkCard SUIT.DIAMONDS 1 13 "AD").
Proof. repeat split; reflexivity. Qed.

(** C8: the card [fromString] returns carries the input string as it was
    given; for "as" that is "as", while [getCardMnemonic] gives "AS" for the
    pair (SPADES, 1) it decodes to. *)
Theorem fromString_keeps_spelling :
  fromString "as" = Ok (mkCard SUIT.SPADES 1 39 "as")
  ∧ getCardMnemonic SUIT.SPADES 1 = "AS"
  ∧ standardCard SUIT.SPADES 1 = mkCard SUIT.SPADES 1 39 "AS".
Proof. repeat split; reflexivity. Qed.

(** ** Construction *)

Lemma mapM_mnemonic_defined (l : list Card) :
  mapM (fmap mnemonic) (Some <$> l) = Some (mnemonic <$> l).
Proof.
  apply mapM_Some. induction l as [|c l IH]; constructor; auto.
Qed.

Lemma createHash_defined sha (d : Deck) (l : list Card) :
  JsArray.elems (cards d) = Some <$> l →
  createHash sha d = (Ok tt, set_hash (content_hash sha l) d).
Proof.
  intros E. unfold createHash, bind, this. rewrite E, mapM_mnemonic_defined.
  reflexivity.
Qed.

Lemma new_Deck_fresh sha : new_Deck sha None = Ok (fresh sha).
Proof. reflexivity. Qed.

(** C10: the constructor treats the empty string as it treats an absent
    argument: it does not throw "Deck must contain 52 cards." but builds the
    standard deck, in the order AC, 2C, ..., KS, with the cursor at 0. *)
Theorem new_Deck_empty_string sha :
  new_Deck sha (Some "") = new_Deck sha None
  ∧ new_Deck sha (Some "") = Ok (fresh sha)
  ∧ top (fresh sha) = 0
  ∧ toString (fresh sha) =
      Ok ("[AC]-2C-3C-4C-5C-6C-7C-8C-9C-10C-JC-QC-KC-" +:+
          "AD-2D-3D-4D-5D-6D-7D-8D-9D-10D-JD-QD-KD-" +:+
          "AH-2H-3H-4H-5H-6H-7H-8H-9H-10H-JH-QH-KH-" +:+
          "AS-2S-3S-4S-5S-6S-7S-8S-9S-10S-JS-QS-KS").
Proof. repeat split; reflexivity. Qed.

(** ** Shuffle: the length check *)

(** C5: on a deck of 52 cards, [shuffle] with a supplied non-empty seed
    whose length is not 52 throws the error that reports both lengths, and
    the deck (cards, hash, seedHash and cursor) is as it was. *)
Theorem shuffle_seed_length_mismatch sha random (d : Deck) (seed : list Z) :
  JsArray.length (cards d) = 52%nat →
  seed ≠ [] →
  List.length seed ≠ 52%nat →
  shuffle sha random (Some seed) d =
    (Throw (Error ("Seed length (" +:+
                   JsString.Number_toString (Z.of_nat (List.length seed)) +:+
                   ") must match cards length (52)")),
     d).
Proof.
  intros Hd Hne Hlen. unfold shuffle, bind, this.
  destruct seed as [|x seed]; [congruence|].
  rewrite Hd. apply Nat.eqb_neq in Hlen. rewrite Hlen. reflexivity.
Qed.

Lemma shuffle_seed_length_mismatch_witness :
  shuffle (λ s, s) (λ _, 0) (Some [1; 2; 3]) (fresh (λ s, s)) =
    (Throw (Error "Seed length (3) must match cards length (52)"),
     fresh (λ s, s)).
Proof.
  apply (shuffle_seed_length_mismatch (λ s, s) (λ _, 0) (fresh (λ s, s)) [1; 2; 3]).
  - reflexivity.
  - discriminate.
  - simpl. lia.
Defined.

(** ** Dealing *)

Lemma getNext_eq (d : Deck) :
  getNext d = (Ok (JsArray.get (cards d) (top d)), set_top (top d + 1) d).
Proof. reflexivity. Qed.





Lemma Array_from_calls {A} (n : nat) (m : M A) : Array_from n m = calls n m.
Proof. induction n as [|n IH]; simpl; [reflexivity|]. rewrite IH. reflexivity. Qed.

Lemma calls_getNext (n : nat) (d : Deck) :
  calls n getNext d =
    (Ok ((λ k : nat, JsArray.get (cards d) (top d + Z.of_nat k)) <$> seq 0 n),
     set_top (top d + Z.of_nat n) d).
Proof.
  revert d. induction n as [|n IH]; intros d.
  - simpl. unfold ret. destruct d; unfold set_top; simpl. rewrite Z.add_0_r.
    reflexivity.
  - cbn [calls]. unfold bind at 1. rewrite getNext_eq.
    unfold bind at 1. rewrite IH.
    unfold ret, set_top; simpl. rewrite Z.add_0_r.
    replace (top d + Z.of_nat (S n)) with (top d + 1 + Z.of_nat n) by lia.
    do 3 f_equal. rewrite <- seq_shift, <- list_fmap_compose.
    apply list_fmap_ext. intros _ k _. simpl. f_equal. lia.
Qed.


(** C1: on a new deck, where the cursor is 0, [deal(1)] returns the card at
    position 1 (2C) and leaves the cursor at 2, while one [getNext()] call
    returns the card at position 0 (AC) and leaves the cursor at 1. *)
Theorem deal_skips_amount sha :
  deal 1 (fresh sha) = (Ok [Some (mkCard SUIT.CLUBS 2 1 "2C")], set_top 2 (fresh sha))
  ∧ calls 1 getNext (fresh sha)
    = (Ok [Some (mkCard SUIT.CLUBS 1 0 "AC")], set_top 1 (fresh sha)).
Proof. split; reflexivity. Qed.

(** ** Serialization and restoration *)

Lemma token_char_plain c :
  token_char c = true →
  not_dash c = true ∧ Ascii.eqb c "[" = false ∧ Ascii.eqb c "]" = false.
Proof.
  destruct c as [[] [] [] [] [] [] [] []]; intros H; try discriminate H;
    repeat split; reflexivity.
Qed.

Lemma split_no_dash x :
  all_chars not_dash x = true → JsString.split "-" x = [x].
Proof.
  induction x as [|c x IH]; simpl; [reflexivity|].
  intros [Hc Hx]%andb_true_iff. unfold not_dash in Hc.
  apply negb_true_iff in Hc. rewrite Hc, (IH Hx). reflexivity.
Qed.

Lemma split_app_dash x r :
  all_chars not_dash x = true →
  JsString.split "-" (x +:+ String "-" r) = x :: JsString.split "-" r.
Proof.
  induction x as [|c x IH]; simpl; [reflexivity|].
  intros [Hc Hx]%andb_true_iff. unfold not_dash in Hc.
  apply negb_true_iff in Hc. rewrite Hc, (IH Hx). reflexivity.
Qed.

Lemma join_cons x y l :
  JsString.join "-" (x :: y :: l) = x +:+ String "-" (JsString.join "-" (y :: l)).
Proof. reflexivity. Qed.

Lemma split_join (l : list string) :
  l ≠ [] → Forall (λ x, all_chars not_dash x = true) l →
  JsString.split "-" (JsString.join "-" l) = l.
Proof.
  induction l as [|x [|y l] IH]; intros Hne Hl; [congruence| |].
  - inversion_clear Hl. simpl. apply split_no_dash. assumption.
  - inversion_clear Hl. rewrite join_cons, split_app_dash by assumption.
    f_equal. apply IH; [discriminate|assumption].
Qed.

Lemma join_two_nonempty x y l : JsString.join "-" (x :: y :: l) ≠ EmptyString.
Proof. rewrite join_cons. destruct x; discriminate. Qed.

Lemma substring_prefix (m r : string) :
  String.substring 0 (String.length m) (m +:+ r) = m.
Proof.
  induction m as [|c m IH]; simpl.
  - destruct r; reflexivity.
  - rewrite IH. reflexivity.
Qed.

Lemma substring_suffix (m r : string) :
  String.substring (String.length m) (String.length r) (m +:+ r) = r.
Proof.
  induction m as [|c m IH]; simpl; [|exact IH].
  induction r as [|c r IH]; simpl; [reflexivity|].
  exact (f_equal (String c) IH).
Qed.

Lemma length_append (a b : string) :
  String.length (a +:+ b) = (String.length a + String.length b)%nat.
Proof. induction a as [|c a IH]; simpl; [reflexivity|]. rewrite IH. reflexivity. Qed.

Lemma bracketed_startsWith m : JsString.startsWith ("[" +:+ m +:+ "]") "[" = true.
Proof.
  unfold JsString.startsWith.
  change ("[" +:+ m +:+ "]") with (String "[" (m +:+ "]")).
  simpl. destruct (m +:+ "]"); reflexivity.
Qed.

Lemma bracketed_endsWith m : JsString.endsWith ("[" +:+ m +:+ "]") "]" = true.
Proof.
  unfold JsString.endsWith.
  change ("[" +:+ m +:+ "]") with (("[" +:+ m) +:+ "]").
  rewrite length_append. apply andb_true_iff. split; [apply Nat.leb_le; lia|].
  rewrite Nat.add_sub, substring_suffix. reflexivity.
Qed.

Lemma bracketed_substring m :
  JsString.substring 1 (String.length ("[" +:+ m +:+ "]") - 1) ("[" +:+ m +:+ "]") = m.
Proof.
  unfold JsString.substring.
  change ("[" +:+ m +:+ "]") with (String "[" (m +:+ "]")).
  cbn [String.length String.substring]. rewrite length_append.
  replace (S (String.length m + String.length "]") - 1 - 1)%nat
    with (String.length m) by (simpl; lia).
  apply substring_prefix.
Qed.

Lemma token_not_bracketed m :
  m ≠ EmptyString → all_chars token_char m = true →
  JsString.startsWith m "[" = false.
Proof.
  destruct m as [|c m]; [congruence|]. intros _ [Hc _]%andb_true_iff.
  apply token_char_plain in Hc as (_ & Hc & _).
  unfold JsString.startsWith. cbn [String.prefix].
  destruct (ascii_dec "[" c) as [<-|]; [discriminate Hc|reflexivity].
Qed.

Lemma piece_no_dash t i c :
  decodable c → all_chars not_dash (piece t i c) = true.
Proof.
  intros [_ Hc]%fromString_Ok_token.
  assert (Hm : all_chars not_dash (mnemonic c) = true).
  { revert Hc. apply all_chars_weaken. intros x Hx.
    apply token_char_plain in Hx. tauto. }
  unfold piece. destruct (Z.of_nat i =? t); [|exact Hm].
  change ("[" +:+ mnemonic c +:+ "]") with (String "[" (mnemonic c +:+ "]")).
  cbn [all_chars]. rewrite all_chars_app, Hm. reflexivity.
Qed.

Lemma pieces_no_dash t i l :
  Forall decodable l → Forall (λ x, all_chars not_dash x = true) (pieces t i l).
Proof.
  intros H. revert i. induction H as [|c l Hc Hl IH]; intros i; simpl;
    constructor; auto using piece_no_dash.
Qed.

Lemma pieces_length t i l : List.length (pieces t i l) = List.length l.
Proof. revert i. induction l as [|c l IH]; intros i; simpl; auto. Qed.

Lemma toString_loop_defined t i (l : list Card) :
  toString_loop t i (Some <$> l) = Ok (pieces t i l).
Proof.
  revert i. induction l as [|c l IH]; intros i; simpl; [reflexivity|].
  rewrite IH. reflexivity.
Qed.

Lemma toString_defined (d : Deck) (l : list Card) :
  JsArray.elems (cards d) = Some <$> l →
  toString d = Ok (JsString.join "-" (pieces (top d) 0 l)).
Proof.
  intros E. unfold toString. rewrite E, toString_loop_defined. reflexivity.
Qed.

Lemma restore_loop_pieces t i (l : list Card) (d : Deck) :
  Forall decodable l →
  restore_loop i (pieces t i l) d =
    (Ok tt,
     {| cards := JsArray.mk (JsArray.elems (cards d) ++ (Some <$> l))
                            (JsArray.props (cards d));
        hash := hash d;
        seedHash := seedHash d;
        top := if (Z.of_nat i <=? t) && (t <? Z.of_nat i + Z.of_nat (List.length l))
               then t else top d |}).
Proof.
  intros H. revert i d. induction H as [|c l Hc Hl IH]; intros i d.
  - destruct d as [[es ps] h sh tp]. simpl. unfold ret. rewrite app_nil_r.
    do 2 f_equal. cbn [List.length]. case_bounds.
  - cbn [pieces restore_loop]. unfold piece.
    destruct (Z.eqb_spec (Z.of_nat i) t) as [Eq|Ne].
    + rewrite bracketed_startsWith, bracketed_endsWith. cbn [andb].
      unfold bind, update, ret, lift. rewrite bracketed_substring, Hc, IH.
      destruct d as [[es ps] h sh tp]. unfold set_cards, set_top, JsArray.push.
      cbn [cards hash seedHash top JsArray.elems JsArray.props List.length].
      rewrite <- app_assoc. cbn [app fmap list_fmap]. do 2 f_equal.
      case_bounds.
    + destruct (fromString_Ok_token _ _ Hc) as [Hne Htok].
      rewrite (token_not_bracketed _ Hne Htok). cbn [andb].
      unfold bind, update, ret, lift. rewrite Hc, IH.
      destruct d as [[es ps] h sh tp]. unfold set_cards, set_top, JsArray.push.
      cbn [cards hash seedHash top JsArray.elems JsArray.props List.length].
      rewrite <- app_assoc. cbn [app fmap list_fmap]. do 2 f_equal.
      case_bounds.
Qed.

(** Restoring the string [toString] gives for 52 decodable cards and the
    cursor [t]: the same cards, their content hash, the zero seed hash, and
    the cursor [t] when a piece was bracketed, 0 when none was. *)
Lemma new_Deck_pieces sha t (l : list Card) :
  List.length l = 52%nat → Forall decodable l →
  new_Deck sha (Some (JsString.join "-" (pieces t 0 l))) =
    Ok {| cards := JsArray.mk (Some <$> l) ∅;
          hash := content_hash sha l;
          seedHash := ZERO_HASH;
          top := if (0 <=? t) && (t <? 52) then t else 0 |}.
Proof.
  intros Hlen Hl. unfold new_Deck, constructor.
  assert (Hp : List.length (pieces t 0 l) = 52%nat) by (rewrite pieces_length; exact Hlen).
  assert (Hs : truthy (Some (JsString.join "-" (pieces t 0 l)))
               = Some (JsString.join "-" (pieces t 0 l))).
  { destruct (pieces t 0 l) as [|x [|y ps]]; try discriminate Hp.
    pose proof (join_two_nonempty x y ps) as Hne.
    destruct (JsString.join "-" (x :: y :: ps)); [congruence|reflexivity]. }
  rewrite Hs, split_join.
  - rewrite Hp. cbn [Nat.eqb negb].
    unfold bind at 1. unfold bind at 1. unfold update at 1.
    rewrite restore_loop_pieces by exact Hl.
    unfold bind at 1. unfold update at 1.
    unfold bind at 1. erewrite createHash_defined by reflexivity.
    unfold update, blank, set_cards, set_hash, set_seedHash, JsArray.empty.
    cbn [cards hash seedHash top JsArray.elems JsArray.props app].
    rewrite Hlen. reflexivity.
  - destruct (pieces t 0 l); [discriminate Hp|discriminate].
  - apply pieces_no_dash, Hl.
Qed.

(** C2, as stated, fails where the cursor is 52: after 52 [getNext] calls
    on a new deck no piece of the string is bracketed, and the deck restored
    from it has the cursor 0. *)
Lemma roundtrip_fails_when_exhausted :
  calls 52 getNext (fresh (λ s, s))
    = (Ok (Some <$> standard52), set_top 52 (fresh (λ s, s)))
  ∧ ¬ roundtrip (λ s, s) (set_top 52 (fresh (λ s, s))).
Proof.
  split; [reflexivity|].
  intros (s & d' & Hs & Hd & _ & Ht & _).
  vm_compute in Hs. injection Hs as <-.
  vm_compute in Hd. injection Hd as <-.
  discriminate Ht.
Qed.

(** C2, amended: for a deck of 52 cards that decode to themselves, whose
    hash is the content hash of its cards and whose cursor is in 0..52, the
    deck built from [toString()] has the same cards in the same order and
    the same hash (and the zero seed hash); it has the same cursor when the
    cursor is in 0..51. *)
Theorem toString_roundtrip sha (d : Deck) (l : list Card) :
  JsArray.elems (cards d) = Some <$> l →
  List.length l = 52%nat →
  Forall decodable l →
  hash d = content_hash sha l →
  0 ≤ top d ≤ 52 →
  ∃ s d', toString d = Ok s ∧ new_Deck sha (Some s) = Ok d'
          ∧ JsArray.elems (cards d') = JsArray.elems (cards d)
          ∧ hash d' = hash d
          ∧ seedHash d' = ZERO_HASH
          ∧ (top d < 52 → top d' = top d).
Proof.
  intros Hel Hlen Hdec Hh Ht.
  eexists _, _. split; [apply toString_defined, Hel|].
  split; [apply new_Deck_pieces; assumption|].
  cbn [cards hash seedHash top JsArray.elems]. repeat split; try congruence.
  intros Hlt. case_bounds.
Qed.

Lemma toString_roundtrip_witness :
  ∃ s d', toString (set_top 5 (fresh (λ s, s))) = Ok s
          ∧ new_Deck (λ s, s) (Some s) = Ok d'
          ∧ JsArray.elems (cards d') = Some <$> standard52
          ∧ hash d' = content_hash (λ s, s) standard52
          ∧ seedHash d' = ZERO_HASH
          ∧ (5 < 52 → top d' = 5).
Proof.
  apply (toString_roundtrip (λ s, s) (set_top 5 (fresh (λ s, s))) standard52).
  - reflexivity.
  - reflexivity.
  - repeat constructor.
  - reflexivity.
  - simpl. lia.
Defined.

(** ** Shuffle: the permutation *)

Lemma swap_positions_length l i j :
  List.length (swap_positions l i j) = List.length l.
Proof.
  unfold swap_positions. destruct (l !! i), (l !! j); try reflexivity.
  rewrite !length_insert. reflexivity.
Qed.

Lemma get_defined (l : list Card) ps (k : nat) :
  JsArray.get (JsArray.mk (Some <$> l) ps) (Z.of_nat k) = l !! k.
Proof.
  unfold JsArray.get. cbn [JsArray.elems].
  destruct (Z.ltb_spec (Z.of_nat k) 0); [lia|].
  rewrite Nat2Z.id, list_lookup_fmap. destruct (l !! k); reflexivity.
Qed.

Lemma set_defined (l : list Card) ps (k : nat) (x : Card) :
  (k < List.length l)%nat →
  JsArray.set (JsArray.mk (Some <$> l) ps) (Z.of_nat k) (Some x)
    = JsArray.mk (Some <$> <[k := x]> l) ps.
Proof.
  intros Hk. unfold JsArray.set. cbn [JsArray.elems JsArray.props].
  destruct (Z.ltb_spec (Z.of_nat k) 0); [lia|].
  rewrite Nat2Z.id, length_fmap.
  apply Nat.ltb_lt in Hk. rewrite Hk. rewrite list_fmap_insert. reflexivity.
Qed.

(** Inside the bounds the swap of the array is the swap of two positions. *)
Lemma swap_defined (l : list Card) ps (i j : nat) :
  (i < List.length l)%nat → (j < List.length l)%nat →
  JsArray.swap (JsArray.mk (Some <$> l) ps) (Z.of_nat i) (Z.of_nat j)
    = JsArray.mk (Some <$> swap_positions l i j) ps.
Proof.
  intros Hi Hj. unfold JsArray.swap, swap_positions. rewrite !get_defined.
  destruct (lookup_lt_is_Some_2 l i Hi) as [x ->].
  destruct (lookup_lt_is_Some_2 l j Hj) as [y ->].
  rewrite set_defined by exact Hi.
  rewrite set_defined by (rewrite length_insert; exact Hj).
  reflexivity.
Qed.

Lemma shuffle_loop_defined (seed : list Z) (i : nat) (l : list Card) ps :
  (i < List.length l)%nat →
  Forall (λ z, 0 ≤ z) seed →
  shuffle_loop seed i (JsArray.mk (Some <$> l) ps)
    = JsArray.mk (Some <$> foldl (fisher_yates_step seed) l (reverse (seq 1 i))) ps.
Proof.
  intros Hi Hseed. revert l Hi. induction i as [|i IH]; intros l Hi.
  - reflexivity.
  - cbn [shuffle_loop].
    rewrite seq_S, reverse_snoc. cbn [foldl]. change (1 + i)%nat with (S i).
    unfold fisher_yates_step at 2.
    set (s := default 0 (seed !! S i)).
    assert (Hs : 0 ≤ s).
    { subst s. destruct (seed !! S i) as [z|] eqn:E; simpl; [|lia].
      eapply (Forall_lookup_1 _ _ _ _ Hseed E). }
    rewrite Z.rem_mod_nonneg by lia.
    pose proof (Z.mod_pos_bound s (Z.of_nat (S i) + 1) ltac:(lia)) as Hj.
    rewrite <- (Z2Nat.id (s `mod` (Z.of_nat (S i) + 1))) at 1 by lia.
    rewrite swap_defined by lia.
    apply IH. rewrite swap_positions_length. lia.
Qed.

(** C6: [shuffle] does not apply the stated permutation to every seed of 52
    integers.  The remainder [%] takes the sign of the seed element: with
    [seed[51] = -1] the swap position is [-1 % 52 = -1], slot 51 receives
    [undefined], the card of slot 51 goes to the property "-1", and
    [createHash] throws on the [undefined] slot; the stated permutation
    would swap the positions 51 and [-1 mod 52 = 51]. *)
Theorem shuffle_negative_seed :
  let seed := replicate 51 0 ++ [-1] in
  let d := fresh (λ s, s) in
  List.length seed = 52%nat
  ∧ fst (shuffle (λ s, s) (λ _, 0) (Some seed) d) = Throw TypeError
  ∧ JsArray.elems (cards (snd (shuffle (λ s, s) (λ _, 0) (Some seed) d))) !! 51%nat
    = Some None
  ∧ ¬ shuffles_as_stated (λ s, s) (λ _, 0) seed d standard52.
Proof.
  cbv zeta. split; [reflexivity|].
  split; [vm_compute; reflexivity|].
  split; [vm_compute; reflexivity|].
  intros (d' & H & _). vm_compute in H. discriminate H.
Qed.



(** ** The cards of the deck *)

Lemma omap_id_cons {A} (e : option A) (es : list (option A)) :
  omap id (e :: es) = option_list e ++ omap id es.
Proof. destruct e; reflexivity. Qed.

Lemma omap_id_defined {A} (l : list A) : omap id (Some <$> l) = l.
Proof. induction l as [|x l IH]; [reflexivity|]. exact (f_equal (cons x) IH). Qed.

Lemma omap_id_insert {A} (es : list (option A)) (n : nat) (v : option A) :
  (n < List.length es)%nat →
  option_list (mjoin (es !! n)) ++ omap id (<[n := v]> es)
    ≡ₚ option_list v ++ omap id es.
Proof.
  revert n. induction es as [|e es IH]; intros n Hn; simpl in Hn; [lia|].
  destruct n as [|n].
  - cbn [lookup list_lookup insert list_insert mjoin option_join].
    rewrite !omap_id_cons. rewrite !(assoc app). f_equiv. apply (comm app).
  - cbn [lookup list_lookup insert list_insert].
    rewrite !omap_id_cons.
    rewrite (assoc app), (comm app _ (option_list e)), <- (assoc app).
    rewrite (IH n) by lia.
    rewrite !(assoc app). f_equiv. apply (comm app).
Qed.

Lemma stray_lookup_delete {A} (m : gmap Z A) (k : Z) :
  stray m ≡ₚ option_list (m !! k) ++ stray (delete k m).
Proof.
  unfold stray. destruct (m !! k) as [x|] eqn:E; simpl.
  - rewrite <- (map_to_list_delete m k x E). reflexivity.
  - rewrite delete_id by exact E. reflexivity.
Qed.

Lemma stray_insert {A} (m : gmap Z A) (k : Z) (x : A) :
  stray (<[k := x]> m) ≡ₚ x :: stray (delete k m).
Proof.
  unfold stray. rewrite <- insert_delete_eq.
  rewrite map_to_list_insert by apply lookup_delete_eq. reflexivity.
Qed.

(** Writing [v] at a key of the domain takes out what was read there and
    puts in [v]. *)
Lemma set_contents (a : JsArray.t Card) (k : Z) (v : option Card) :
  in_domain a k →
  option_list (JsArray.get a k) ++ contents (JsArray.set a k v)
    ≡ₚ option_list v ++ contents a.
Proof.
  unfold in_domain, JsArray.length, JsArray.get, JsArray.set, contents.
  intros Hk. destruct (Z.ltb_spec k 0) as [Hneg|Hpos]; cbn [JsArray.elems JsArray.props].
  - generalize (omap id (JsArray.elems a)) (JsArray.props a). intros es m.
    destruct v as [x|]; cbn [option_list].
    + rewrite stray_insert, (stray_lookup_delete m k) at 1.
      rewrite (comm app es (x :: _)). cbn [app]. rewrite <- Permutation_middle.
      cbn [option_list app]. constructor.
      rewrite (assoc app _ _ es). apply (comm app).
    + change (option_list None) with (@nil Card). cbn [app].
      rewrite (stray_lookup_delete m k) at 1.
      rewrite (assoc app _ es), (comm app _ es), <- (assoc app). reflexivity.
  - assert (Hn : (Z.to_nat k < List.length (JsArray.elems a))%nat) by lia.
    destruct (Nat.ltb_spec (Z.to_nat k) (List.length (JsArray.elems a))); [|lia].
    cbn [JsArray.elems JsArray.props].
    rewrite !(assoc app). f_equiv. apply omap_id_insert. exact Hn.
Qed.

Lemma set_length {A} (a : JsArray.t A) (k : Z) (v : option A) :
  in_domain a k → JsArray.length (JsArray.set a k v) = JsArray.length a.
Proof.
  unfold in_domain, JsArray.length, JsArray.set. intros Hk.
  destruct (Z.ltb_spec k 0); [reflexivity|].
  destruct (Nat.ltb_spec (Z.to_nat k) (List.length (JsArray.elems a))); [|lia].
  cbn [JsArray.elems]. apply length_insert.
Qed.

Lemma get_set_eq {A} (a : JsArray.t A) (k : Z) (v : option A) :
  in_domain a k → JsArray.get (JsArray.set a k v) k = v.
Proof.
  unfold in_domain, JsArray.length, JsArray.get, JsArray.set. intros Hk.
  destruct (Z.ltb_spec k 0); cbn [JsArray.elems JsArray.props].
  - destruct v; [apply lookup_insert_eq|apply lookup_delete_eq].
  - destruct (Nat.ltb_spec (Z.to_nat k) (List.length (JsArray.elems a))); [|lia].
    cbn [JsArray.elems]. rewrite list_lookup_insert_eq by lia. reflexivity.
Qed.

Lemma get_set_ne {A} (a : JsArray.t A) (k k' : Z) (v : option A) :
  in_domain a k → k ≠ k' → JsArray.get (JsArray.set a k v) k' = JsArray.get a k'.
Proof.
  unfold in_domain, JsArray.length, JsArray.get, JsArray.set. intros Hk Hne.
  destruct (Z.ltb_spec k 0), (Z.ltb_spec k' 0); cbn [JsArray.elems JsArray.props];
    try reflexivity.
  - destruct v; [apply lookup_insert_ne|apply lookup_delete_ne]; exact Hne.
  - destruct (Nat.ltb_spec (Z.to_nat k) (List.length (JsArray.elems a))); [|lia].
    reflexivity.
  - destruct (Nat.ltb_spec (Z.to_nat k) (List.length (JsArray.elems a))); [|lia].
    cbn [JsArray.elems]. rewrite list_lookup_insert_ne by lia. reflexivity.
Qed.

(** A swap at two keys of the domain moves cards, it neither loses nor
    duplicates one. *)
Lemma swap_contents (a : JsArray.t Card) (i j : Z) :
  in_domain a i → in_domain a j →
  JsArray.length (JsArray.swap a i j) = JsArray.length a
  ∧ contents (JsArray.swap a i j) ≡ₚ contents a.
Proof.
  intros Hi Hj. unfold JsArray.swap.
  set (vi := JsArray.get a i). set (vj := JsArray.get a j).
  set (a1 := JsArray.set a i vj).
  assert (Hlen1 : JsArray.length a1 = JsArray.length a) by (apply set_length, Hi).
  assert (Hj1 : in_domain a1 j) by (unfold in_domain; rewrite Hlen1; exact Hj).
  split; [rewrite set_length by exact Hj1; exact Hlen1|].
  assert (Hget : JsArray.get a1 j = vj).
  { subst a1. destruct (decide (i = j)) as [<-|Hne].
    - apply get_set_eq, Hi.
    - rewrite get_set_ne by assumption. reflexivity. }
  pose proof (set_contents a i vj Hi) as P1. fold vi a1 in P1.
  pose proof (set_contents a1 j vi Hj1) as P2. rewrite Hget in P2.
  apply (inj (app (option_list vj))). rewrite P2, P1. reflexivity.
Qed.

Lemma shuffle_loop_contents (seed : list Z) (i : nat) (a : JsArray.t Card) :
  (i < JsArray.length a)%nat →
  JsArray.length (shuffle_loop seed i a) = JsArray.length a
  ∧ contents (shuffle_loop seed i a) ≡ₚ contents a.
Proof.
  revert a. induction i as [|i IH]; intros a Hi; [split; reflexivity|].
  cbn [shuffle_loop].
  set (j := Z.rem (default 0 (seed !! S i)) (Z.of_nat (S i) + 1)).
  assert (Hj : Z.abs j < Z.of_nat (S i) + 1).
  { pose proof (Z.rem_bound_abs (default 0 (seed !! S i)) (Z.of_nat (S i) + 1)
                  ltac:(lia)). lia. }
  destruct (swap_contents a (Z.of_nat (S i)) j) as [Hlen Hperm];
    [unfold in_domain; lia|unfold in_domain; lia|].
  destruct (IH (JsArray.swap a (Z.of_nat (S i)) j)) as [Hlen' Hperm']; [lia|].
  split; [congruence|]. rewrite Hperm', Hperm. reflexivity.
Qed.

Lemma mapM_fmap_defined {A B} (f : A → B) (es : list (option A)) (ms : list B) :
  mapM (fmap f) es = Some ms → ∃ l, es = Some <$> l ∧ ms = f <$> l.
Proof.
  rewrite mapM_Some. induction 1 as [|e m es ms He _ (l & -> & ->)].
  - exists []. split; reflexivity.
  - apply fmap_Some in He as (c & -> & ->). exists (c :: l). split; reflexivity.
Qed.

(** [createHash] either finds every slot defined and stores the content
    hash, or throws and changes nothing. *)
Lemma createHash_cases sha (d : Deck) :
  (∃ l, JsArray.elems (cards d) = Some <$> l
        ∧ createHash sha d = (Ok tt, set_hash (content_hash sha l) d))
  ∨ createHash sha d = (Throw TypeError, d).
Proof.
  unfold createHash, bind, this.
  destruct (mapM (fmap mnemonic) (JsArray.elems (cards d))) as [ms|] eqn:E.
  - left. apply mapM_fmap_defined in E as (l & El & ->). exists l. split; [exact El|].
    reflexivity.
  - right. reflexivity.
Qed.

Lemma pairs_length l : List.length (pairs l) = List.length l.
Proof. apply length_fmap. Qed.

Lemma holds_full_deck_conserved (d : Deck) : holds_full_deck d → conserved d.
Proof.
  intros (l & Hc & Hlen & Hfull). unfold conserved, JsArray.length, contents.
  rewrite Hc. cbn [JsArray.elems JsArray.props].
  rewrite length_fmap, omap_id_defined. split; [exact Hlen|].
  unfold stray. rewrite map_to_list_empty. cbn [fmap list_fmap].
  rewrite app_nil_r. exact Hfull.
Qed.

(** When the 52 slots are all defined, nothing is left under another key. *)
Lemma conserved_defined (d : Deck) (l : list Card) :
  conserved d → JsArray.elems (cards d) = Some <$> l → holds_full_deck d.
Proof.
  destruct d as [[es ps] h sh tp]. unfold conserved, JsArray.length, contents.
  cbn [cards JsArray.elems JsArray.props]. intros [Hlen Hfull] ->.
  rewrite length_fmap in Hlen. rewrite omap_id_defined in Hfull.
  assert (Hstray : stray ps = []).
  { apply Permutation_length in Hfull.
    rewrite !pairs_length, length_app, Hlen in Hfull.
    apply nil_length_inv. change (List.length standard52) with 52%nat in Hfull. lia. }
  rewrite Hstray, app_nil_r in Hfull.
  apply fmap_nil_inv, map_to_list_empty_iff in Hstray. subst ps.
  exists l. auto.
Qed.

(** [shuffle] either throws at the length check and leaves the object as it
    was, or stores the seed hash, runs the loop and ends in [createHash]. *)
Lemma shuffle_cases sha random (seed : option (list Z)) (d : Deck) :
  (∃ e, shuffle sha random seed d = (Throw e, d))
  ∨ (∃ seed' h,
       shuffle sha random seed d =
         createHash sha
           (set_cards (shuffle_loop seed' (JsArray.length (cards d) - 1))
                      (set_seedHash h d))).
Proof.
  remember (shuffle sha random seed d) as r eqn:E.
  unfold shuffle, bind at 1, this in E. cbv beta iota zeta in E.
  destruct (negb _) in E.
  - left. eexists. exact E.
  - right. eexists _, _. rewrite E. unfold bind at 1, update at 1.
    unfold bind at 1, update at 1. reflexivity.
Qed.

(** Whatever the seed and whatever the outcome, [shuffle] keeps the cards
    conserved; when it returns, the 52 slots hold a permutation of the
    standard deck. *)
Lemma shuffle_conserved sha random (seed : option (list Z)) (d : Deck) :
  conserved d →
  conserved (snd (shuffle sha random seed d))
  ∧ (fst (shuffle sha random seed d) = Ok tt →
     holds_full_deck (snd (shuffle sha random seed d))).
Proof.
  intros Hd.
  destruct (shuffle_cases sha random seed d) as [[e ->]|(seed' & h & ->)];
    cbn [fst snd].
  - split; [exact Hd|intros H; discriminate H].
  - set (d2 := set_cards _ (set_seedHash _ d)).
    assert (H2 : conserved d2).
    { destruct Hd as [Hlen Hfull]. subst d2. unfold conserved.
      cbn [cards set_cards set_seedHash].
      destruct (shuffle_loop_contents seed' (JsArray.length (cards d) - 1) (cards d))
        as [Hlen' Hperm]; [lia|].
      split; [congruence|]. unfold full_deck, pairs in *. rewrite Hperm. exact Hfull. }
    destruct (createHash_cases sha d2) as [(l & El & ->)| ->]; cbn [fst snd].
    + assert (H3 : conserved (set_hash (content_hash sha l) d2)) by exact H2.
      split; [exact H3|]. intros _. eapply conserved_defined; [exact H3|exact El].
    + split; [exact H2|intros H; discriminate H].
Qed.

Lemma restore_loop_cards (ms : list string) (i : nat) (d d' : Deck) :
  restore_loop i ms d = (Ok tt, d') →
  ∃ l, cards d' = JsArray.mk (JsArray.elems (cards d) ++ (Some <$> l))
                             (JsArray.props (cards d))
       ∧ List.length l = List.length ms ∧ Forall decodable l.
Proof.
  revert i d. induction ms as [|m ms IH]; intros i d H.
  - injection H as <-. exists []. destruct d as [[es ps] h sh tp].
    cbn [cards JsArray.elems JsArray.props fmap list_fmap]. rewrite app_nil_r. auto.
  - cbn [restore_loop] in H.
    assert (step : ∀ m' d1, cards d1 = cards d →
      (let* c := lift (fromString m') in
       update (set_cards (λ a, JsArray.push a c)) ;; restore_loop (S i) ms) d1
        = (Ok tt, d') →
      ∃ l, cards d' = JsArray.mk (JsArray.elems (cards d) ++ (Some <$> l))
                                 (JsArray.props (cards d))
           ∧ List.length l = List.length (m :: ms) ∧ Forall decodable l).
    { intros m' d1 Hd1. unfold bind at 1, lift.
      destruct (fromString m') as [c|e] eqn:E; [|discriminate].
      unfold bind at 1, update. intros (l & Hc & Hlen & Hl)%IH.
      exists (c :: l). split; [|split].
      - rewrite Hc. unfold set_cards, JsArray.push. cbn [cards JsArray.elems JsArray.props].
        rewrite Hd1, <- app_assoc. reflexivity.
      - simpl. congruence.
      - constructor; [|exact Hl]. unfold decodable.
        rewrite (fromString_Ok_mnemonic _ _ E). exact E. }
    unfold bind at 1 in H.
    destruct (JsString.startsWith m "[" && JsString.endsWith m "]").
    + unfold bind at 1, update at 1, ret at 1 in H. eapply step; [|exact H]. reflexivity.
    + unfold ret at 1 in H. eapply step; [|exact H]. reflexivity.
Qed.

(** Every construction that returns gives 52 defined cards, each decodable,
    with their content hash and the zero seed hash. *)
Lemma new_Deck_cards sha (arg : option string) (d : Deck) :
  new_Deck sha arg = Ok d →
  ∃ l, cards d = JsArray.mk (Some <$> l) ∅ ∧ List.length l = 52%nat
       ∧ Forall decodable l
       ∧ hash d = content_hash sha l ∧ seedHash d = ZERO_HASH.
Proof.
  unfold new_Deck, constructor. destruct (truthy arg) as [s|].
  - destruct (Nat.eqb_spec (List.length (JsString.split "-" s)) 52) as [Hlen|_];
      cbn [negb]; [|discriminate].
    unfold bind at 1. unfold bind at 1, update at 1.
    destruct (restore_loop 0 (JsString.split "-" s) _) as [[[]|e] d1] eqn:E;
      [|discriminate].
    apply restore_loop_cards in E as (l & Hc & Hl & Hdec).
    unfold blank, set_cards, JsArray.empty in Hc.
    cbn [cards JsArray.elems JsArray.props app] in Hc.
    unfold bind at 1, update at 1. unfold bind at 1.
    erewrite createHash_defined by (cbn [cards set_hash]; rewrite Hc; reflexivity).
    unfold update. intros [= <-]. exists l.
    cbn [cards hash seedHash set_hash set_seedHash]. repeat split; auto. congruence.
  - intros H. change (new_Deck sha None = Ok d) in H.
    rewrite new_Deck_fresh in H. injection H as <-.
    exists standard52. repeat split. repeat constructor.
Qed.

Lemma fresh_holds_full_deck sha : holds_full_deck (fresh sha).
Proof.
  exists standard52. split; [reflexivity|]. split; [reflexivity|].
  unfold full_deck. reflexivity.
Qed.




(** ** The decks a program can reach *)

Lemma defined_inj {A} (l l' : list A) : Some <$> l = Some <$> l' → l = l'.
Proof.
  intros H. apply (f_equal (omap id)) in H. rewrite !omap_id_defined in H. exact H.
Qed.

Lemma deal_state (amount : Z) (d : Deck) :
  snd (deal amount d) = set_top (top d + amount + Z.of_nat (Z.to_nat amount)) d.
Proof.
  unfold deal, bind at 1, this. unfold bind at 1, update.
  rewrite Array_from_calls, calls_getNext. reflexivity.
Qed.

Lemma new_Deck_well_kept sha arg (d : Deck) :
  new_Deck sha arg = Ok d → well_kept sha d.
Proof.
  intros (l & Hc & Hlen & Hdec & Hh & _)%new_Deck_cards.
  unfold well_kept, JsArray.length, contents. rewrite Hc.
  cbn [JsArray.elems JsArray.props]. rewrite length_fmap, omap_id_defined.
  unfold stray. rewrite map_to_list_empty. cbn [fmap list_fmap].
  rewrite app_nil_r. repeat split; try assumption.
  intros l' <-%defined_inj. exact Hh.
Qed.

Lemma call_well_kept sha (d d' : Deck) :
  call sha d d' → well_kept sha d → well_kept sha d'.
Proof.
  intros [random seed d0|d0|amount d0] (Hlen & Hdec & Hh).
  - destruct (shuffle_cases sha random seed d0) as [[e ->]|(seed' & h & ->)];
      [repeat split; assumption|].
    set (d2 := set_cards _ (set_seedHash _ d0)).
    destruct (shuffle_loop_contents seed' (JsArray.length (cards d0) - 1) (cards d0))
      as [Hlen' Hperm]; [lia|].
    assert (H2 : JsArray.length (cards d2) = 52%nat
                 ∧ Forall decodable (contents (cards d2))).
    { subst d2. cbn [cards set_cards set_seedHash]. split; [congruence|].
      rewrite Hperm. exact Hdec. }
    destruct (createHash_cases sha d2) as [(l & El & E)|E]; rewrite E; cbn [snd].
    + destruct H2. repeat split; try assumption.
      intros l' Hl'. cbn [cards set_hash hash] in *. rewrite El in Hl'.
      apply defined_inj in Hl' as <-. reflexivity.
    + destruct H2. repeat split; try assumption.
      intros l' Hl'. rewrite (createHash_defined sha d2 l' Hl') in E. discriminate E.
  - rewrite getNext_eq. repeat split; assumption.
  - rewrite deal_state. repeat split; assumption.
Qed.

Lemma call_conserved sha (d d' : Deck) :
  call sha d d' → conserved d → conserved d'.
Proof.
  intros [random seed d0|d0|amount d0] Hd.
  - apply shuffle_conserved, Hd.
  - rewrite getNext_eq. exact Hd.
  - rewrite deal_state. exact Hd.
Qed.

(** Every deck a program can reach is well kept: when all its slots are
    defined it meets the conditions under which the round trip is proved. *)
Lemma reachable_restorable sha (d : Deck) (l : list Card) :
  reachable sha d →
  JsArray.elems (cards d) = Some <$> l →
  List.length l = 52%nat ∧ Forall decodable l ∧ hash d = content_hash sha l.
Proof.
  intros (arg & d0 & Hnew & Hrtc) El.
  assert (Hk : well_kept sha d).
  { apply new_Deck_well_kept in Hnew. clear El.
    induction Hrtc as [|x y z Hxy _ IH]; [exact Hnew|].
    apply IH. eapply call_well_kept; eassumption. }
  destruct Hk as (Hlen & Hdec & Hh). unfold JsArray.length, contents in *.
  rewrite El in *. rewrite length_fmap in Hlen. rewrite omap_id_defined in Hdec.
  apply Forall_app in Hdec as [Hdec _]. auto.
Qed.

(** A deck made by [new Deck()] keeps the standard cards through every
    method call. *)
Lemma fresh_stays_conserved sha (d : Deck) :
  rtc (call sha) (fresh sha) d → conserved d.
Proof.
  intros Hrtc.
  assert (H0 : conserved (fresh sha))
    by apply holds_full_deck_conserved, fresh_holds_full_deck.
  induction Hrtc as [|x y z Hxy _ IH]; [exact H0|].
  apply IH. eapply call_conserved; eassumption.
Qed.

(** * Further properties *)

(** ** The codec on every string *)

Lemma suit_letter_iff c : Pattern.suit_letter c = true ↔ c ∈ suit_letters.
Proof.
  split.
  - destruct c as [[] [] [] [] [] [] [] []]; intros H; try discriminate H;
      apply list_elem_of_In; simpl; auto 10.
  - intros H. unfold suit_letters in H.
    repeat (apply elem_of_cons in H as [->|H]; [reflexivity|]).
    apply elem_of_nil in H. destruct H.
Qed.

Lemma rank_letter_iff c : Pattern.rank_letter c = true ↔ c ∈ rank_letters.
Proof.
  split.
  - destruct c as [[] [] [] [] [] [] [] []]; intros H; try discriminate H;
      apply list_elem_of_In; simpl; auto 10.
  - intros H. unfold rank_letters in H.
    repeat (apply elem_of_cons in H as [->|H]; [reflexivity|]).
    apply elem_of_nil in H. destruct H.
Qed.

Lemma is_digit_iff c : JsString.is_digit c = true ↔ c ∈ digit_chars.
Proof.
  split.
  - destruct c as [[] [] [] [] [] [] [] []]; intros H; try discriminate H;
      apply list_elem_of_In; simpl; auto 12.
  - intros H. unfold digit_chars in H.
    repeat (apply elem_of_cons in H as [->|H]; [reflexivity|]).
    apply elem_of_nil in H. destruct H.
Qed.

Lemma all_digits_iff g :
  all_chars JsString.is_digit g = true
  ↔ Forall (λ x, x ∈ digit_chars) (list_ascii_of_string g).
Proof.
  induction g as [|c g IH]; simpl.
  - split; [constructor|reflexivity].
  - rewrite andb_true_iff, Forall_cons, IH, is_digit_iff. reflexivity.
Qed.

Lemma digit_classes c :
  JsString.is_digit c = true →
  Pattern.rank_letter c = false ∧ Pattern.suit_letter c = false
  ∧ JsString.toUpperCase_char c = c ∧ 0 ≤ JsString.digit_value c ≤ 9.
Proof.
  destruct c as [[] [] [] [] [] [] [] []]; intros H; try discriminate H;
    repeat split; discriminate.
Qed.

Lemma suit_letter_not_digit c :
  Pattern.suit_letter c = true → JsString.is_digit c = false.
Proof.
  destruct c as [[] [] [] [] [] [] [] []]; intros H; try discriminate H;
    reflexivity.
Qed.

(** A greedy run of digits stops at the first character that is none. *)
Lemma digits_app g c rest :
  all_chars JsString.is_digit g = true → JsString.is_digit c = false →
  Pattern.digits (g +:+ String c rest) = (g, String c rest).
Proof.
  intros Hg Hc. induction g as [|x g IH]; simpl in *.
  - rewrite Hc. reflexivity.
  - apply andb_true_iff in Hg as [Hx Hg]. rewrite Hx, (IH Hg). reflexivity.
Qed.

Lemma exec_numeral g c :
  g ≠ EmptyString → all_chars JsString.is_digit g = true →
  Pattern.suit_letter c = true →
  Pattern.exec (g +:+ String c EmptyString) = Some (g, String c EmptyString).
Proof.
  intros Hne Hg Hc.
  assert (Hnum : Pattern.numeral_then_suit (g +:+ String c EmptyString)
                 = Some (g, String c EmptyString)).
  { unfold Pattern.numeral_then_suit.
    rewrite digits_app by auto using suit_letter_not_digit.
    destruct g; [congruence|]. rewrite Hc. reflexivity. }
  destruct g as [|a [|b g]]; [congruence| |].
  - change (Pattern.exec (String a (String c EmptyString))
            = Some (String a EmptyString, String c EmptyString)).
    unfold Pattern.exec. simpl in Hg. apply andb_true_iff in Hg as [Ha _].
    destruct (digit_classes a Ha) as (-> & _). exact Hnum.
  - rewrite <- Hnum. destruct g as [|? ?]; reflexivity.
Qed.

Lemma exec_letter a c :
  Pattern.rank_letter a = true → Pattern.suit_letter c = true →
  Pattern.exec (String a (String c EmptyString))
    = Some (String a EmptyString, String c EmptyString).
Proof. intros Ha Hc. unfold Pattern.exec. rewrite Ha, Hc. reflexivity. Qed.

Lemma parseInt_from_nonneg acc s : 0 ≤ acc → 0 ≤ JsString.parseInt_from acc s.
Proof.
  revert acc. induction s as [|c s IH]; intros acc Hacc; simpl; [exact Hacc|].
  destruct (JsString.is_digit c) eqn:Hc; [|exact Hacc].
  apply IH. destruct (digit_classes c Hc) as (_ & _ & _ & Hd). lia.
Qed.

Lemma rank_switch_nonneg s : 0 ≤ rank_switch s.
Proof.
  unfold rank_switch.
  repeat match goal with |- context [if ?b then _ else _] => destruct b end;
    try lia.
  apply parseInt_from_nonneg. lia.
Qed.

Lemma well_formed_exec m :
  well_formed m ↔ ∃ g1 g2, Pattern.exec m = Some (g1, g2).
Proof.
  split.
  - intros (g & c & -> & Hc%suit_letter_iff & [(a & -> & Ha%rank_letter_iff)|[Hne Hg%all_digits_iff]]).
    + eexists _, _. apply exec_letter; assumption.
    + eexists _, _. apply exec_numeral; assumption.
  - intros (g1 & g2 & (c & -> & -> & Hc & Hg)%exec_spec).
    exists g1, c. split; [reflexivity|]. split; [apply suit_letter_iff, Hc|].
    destruct Hg as [(a & -> & Ha)|[Hne Hd]].
    + left. exists a. split; [reflexivity|]. apply rank_letter_iff, Ha.
    + right. split; [exact Hne|]. apply all_digits_iff, Hd.
Qed.

(** X1: [fromString] accepts exactly the strings made of one letter among
    A, J, Q, K (either case) or a non-empty run of digits, followed by one
    letter among C, D, H, S (either case).  On those it returns a card that
    carries the input as mnemonic, with a suit in 1..4 and a rank that is
    not negative; on every other string it throws the error
    "Invalid card mnemonic: " followed by the input, and never the error of
    the suit [switch]. *)
Theorem fromString_outcomes (m : string) :
  (well_formed m
   ∧ ∃ c, fromString m = Ok c ∧ mnemonic c = m ∧ 1 ≤ suit c ≤ 4 ∧ 0 ≤ rank c)
  ∨ (¬ well_formed m
     ∧ fromString m = Throw (Error ("Invalid card mnemonic: " +:+ m))).
Proof.
  destruct (fromString_cases m) as [(g1 & g2 & s & E & Hs & ->)|[E ->]].
  - left. split; [apply well_formed_exec; eauto|].
    eexists. split; [reflexivity|]. cbn [mnemonic suit rank value].
    repeat split; try lia. apply rank_switch_nonneg.
  - right. split; [|reflexivity].
    intros (g1 & g2 & E')%well_formed_exec. congruence.
Qed.

(** *** Letter case *)









(** *** Numerals *)














(** ** Dealing inside the deck *)

Lemma reads_defined (l : list Card) ps (t : Z) (n : nat) :
  0 ≤ t → t + Z.of_nat n ≤ Z.of_nat (List.length l) →
  (λ k : nat, JsArray.get (JsArray.mk (Some <$> l) ps) (t + Z.of_nat k)) <$> seq 0 n
    = Some <$> take n (drop (Z.to_nat t) l).
Proof.
  intros Ht Hn. apply list_eq. intros k.
  rewrite !list_lookup_fmap. destruct (decide (k < n)%nat) as [Hk|Hk].
  - rewrite lookup_seq_lt by exact Hk. cbn [fmap option_fmap option_map].
    rewrite lookup_take_lt by exact Hk. rewrite lookup_drop.
    replace (t + Z.of_nat (0 + k)) with (Z.of_nat (Z.to_nat t + k)) by lia.
    rewrite get_defined.
    destruct (lookup_lt_is_Some_2 l (Z.to_nat t + k)) as [x ->]; [lia|reflexivity].
  - rewrite lookup_seq_ge by lia. rewrite lookup_take_ge by lia. reflexivity.
Qed.

(** X5: on a deck whose slots hold the cards [l], with the cursor [t]
    inside the deck, [n] successive [getNext()] calls that stay inside it
    ([t + n] at most the number of cards) return the cards at the positions
    [t], ..., [t+n-1] in order, leave the cursor at [t + n] and change
    nothing else. *)
Theorem getNext_in_range (d : Deck) (l : list Card) (n : nat) :
  JsArray.elems (cards d) = Some <$> l →
  0 ≤ top d →
  top d + Z.of_nat n ≤ Z.of_nat (List.length l) →
  calls n getNext d =
    (Ok (Some <$> take n (drop (Z.to_nat (top d)) l)),
     set_top (top d + Z.of_nat n) d).
Proof.
  intros El Ht Hn. rewrite calls_getNext.
  destruct d as [[es ps] h sh tp]. cbn [cards top JsArray.elems] in *. subst es.
  rewrite reads_defined by assumption. reflexivity.
Qed.

Lemma getNext_in_range_witness :
  calls 52 getNext (fresh (λ s, s)) =
    (Ok (Some <$> take 52 (drop (Z.to_nat 0) standard52)),
     set_top (0 + Z.of_nat 52) (fresh (λ s, s))).
Proof.
  apply (getNext_in_range (fresh (λ s, s)) standard52 52).
  - reflexivity.
  - simpl. lia.
  - simpl. lia.
Defined.



(** ** Construction from a string *)

Lemma split_length s : List.length (JsString.split "-" s) = S (dashes s).
Proof.
  induction s as [|c s IH]; [reflexivity|]. cbn [JsString.split dashes].
  destruct (Ascii.eqb c "-"); cbn [List.length]; [rewrite IH; reflexivity|].
  destruct (JsString.split "-" s) as [|t ts]; [discriminate IH|exact IH].
Qed.

Lemma decode_pieces_Forall2 (ms : list string) (l : list Card) :
  decode_pieces ms = Ok l ↔ Forall2 (λ m c, fromString (unbracket m) = Ok c) ms l.
Proof.
  revert l. induction ms as [|m ms IH]; intros l; cbn [decode_pieces].
  - split; [intros [= <-]; constructor|intros ->%Forall2_nil_inv_l; reflexivity].
  - split.
    + destruct (fromString (unbracket m)) as [c|e] eqn:E; [|discriminate].
      destruct (decode_pieces ms) as [l'|e]; [|discriminate].
      intros [= <-]. constructor; [exact E|]. apply IH. reflexivity.
    + intros (c & l' & E & Hl & ->)%Forall2_cons_inv_l.
      rewrite E. apply IH in Hl. rewrite Hl. reflexivity.
Qed.

(** One turn of the constructor's loop. *)
Lemma restore_loop_cons (i : nat) (m : string) (ms : list string) (d : Deck) :
  restore_loop i (m :: ms) d =
    let d1 := if bracketed m then set_top (Z.of_nat i) d else d in
    match fromString (unbracket m) with
    | Ok c => restore_loop (S i) ms (set_cards (λ a, JsArray.push a c) d1)
    | Throw e => (Throw e, d1)
    end.
Proof.
  cbn [restore_loop]. unfold unbracket, bracketed.
  destruct (JsString.startsWith m "[" && JsString.endsWith m "]");
    unfold bind, update, ret, lift; cbv zeta;
    destruct (fromString _); reflexivity.
Qed.

(** The loop of the constructor decodes the pieces in order and stops at
    the first error. *)
Lemma restore_loop_decode (ms : list string) (i : nat) (d : Deck) :
  match decode_pieces ms with
  | Ok l =>
      restore_loop i ms d =
        (Ok tt,
         {| cards := JsArray.mk (JsArray.elems (cards d) ++ (Some <$> l))
                                (JsArray.props (cards d));
            hash := hash d;
            seedHash := seedHash d;
            top := cursor_after (top d) i ms |})
  | Throw e => fst (restore_loop i ms d) = Throw e
  end.
Proof.
  revert i d. induction ms as [|m ms IH]; intros i d.
  - destruct d as [[es ps] h sh tp]. cbn. unfold ret. rewrite app_nil_r. reflexivity.
  - rewrite restore_loop_cons. cbn [decode_pieces cursor_after]. cbv zeta.
    destruct (fromString (unbracket m)) as [c|e]; [|reflexivity].
    specialize (IH (S i) (set_cards (λ a, JsArray.push a c)
                            (if bracketed m then set_top (Z.of_nat i) d else d))).
    destruct (decode_pieces ms) as [l|e]; [|exact IH].
    rewrite IH. destruct d as [[es ps] h sh tp].
    destruct (bracketed m); unfold set_cards, set_top, JsArray.push;
      cbn [cards hash seedHash top JsArray.elems JsArray.props];
      rewrite <- app_assoc; reflexivity.
Qed.

Lemma decode_pieces_length ms l : decode_pieces ms = Ok l → List.length l = List.length ms.
Proof.
  intros H%decode_pieces_Forall2. symmetry. eapply Forall2_length, H.
Qed.

(** The constructor on a string that is not empty, in one equation. *)
Lemma new_Deck_restore sha (s : string) :
  s ≠ EmptyString →
  new_Deck sha (Some s) =
    if (List.length (JsString.split "-" s) =? 52)%nat
    then match decode_pieces (JsString.split "-" s) with
         | Ok l =>
             Ok {| cards := JsArray.mk (Some <$> l) ∅;
                   hash := content_hash sha l;
                   seedHash := ZERO_HASH;
                   top := cursor_after 0 0 (JsString.split "-" s) |}
         | Throw e => Throw e
         end
    else Throw (Error "Deck must contain 52 cards.").
Proof.
  intros Hs. unfold new_Deck, constructor.
  assert (Ht : truthy (Some s) = Some s) by (destruct s; [congruence|reflexivity]).
  rewrite Ht. destruct (List.length (JsString.split "-" s) =? 52)%nat;
    cbn [negb]; [|reflexivity].
  unfold bind at 1. unfold bind at 1, update at 1.
  pose proof (restore_loop_decode (JsString.split "-" s) 0
                (set_cards (λ _, JsArray.empty) blank)) as H.
  destruct (decode_pieces (JsString.split "-" s)) as [l|e].
  - rewrite H. unfold bind at 1, update at 1. unfold bind at 1.
    erewrite createHash_defined by reflexivity. reflexivity.
  - destruct (restore_loop _ _ _) as [[[]|e'] d']; cbn [fst] in H.
    + discriminate H.
    + injection H as ->. reflexivity.
Qed.

Lemma cursor_after_none t i (ms : list string) :
  Forall (λ m, bracketed m = false) ms → cursor_after t i ms = t.
Proof.
  intros H. revert t i. induction H as [|m ms Hm _ IH]; intros t i; [reflexivity|].
  cbn [cursor_after]. rewrite Hm. apply IH.
Qed.

Lemma cursor_after_last t i (ms1 ms2 : list string) (m : string) :
  bracketed m = true → Forall (λ m, bracketed m = false) ms2 →
  cursor_after t i (ms1 ++ m :: ms2) = Z.of_nat (i + List.length ms1).
Proof.
  intros Hm H2. revert t i. induction ms1 as [|x ms1 IH]; intros t i.
  - cbn [app cursor_after List.length]. rewrite Hm, cursor_after_none by exact H2.
    f_equal. lia.
  - cbn [app cursor_after List.length]. rewrite IH. f_equal. lia.
Qed.

(** X7: the constructor, given a string that is not empty and splits at
    the hyphens into 52 pieces each of which, its enclosing brackets taken
    off, [fromString] decodes, returns a deck holding the decoded cards in
    the order of the pieces, with their content hash and the zero seed hash.
    The cursor is the index of the last piece in brackets (the brackets are
    not required to be unique), and 0 when no piece is in brackets. *)
Theorem new_Deck_decodes_pieces sha (s : string) (l : list Card) :
  s ≠ EmptyString →
  List.length (JsString.split "-" s) = 52%nat →
  Forall2 (λ m c, fromString (unbracket m) = Ok c) (JsString.split "-" s) l →
  ∃ d, new_Deck sha (Some s) = Ok d
       ∧ cards d = JsArray.mk (Some <$> l) ∅
       ∧ hash d = content_hash sha l
       ∧ seedHash d = ZERO_HASH
       ∧ (Forall (λ m, bracketed m = false) (JsString.split "-" s) → top d = 0)
       ∧ (∀ ms1 m ms2, JsString.split "-" s = ms1 ++ m :: ms2 →
            bracketed m = true → Forall (λ m, bracketed m = false) ms2 →
            top d = Z.of_nat (List.length ms1)).
Proof.
  intros Hs Hlen Hl%decode_pieces_Forall2.
  rewrite (new_Deck_restore sha s Hs), Hlen, Hl. cbn [Nat.eqb].
  eexists. split; [reflexivity|]. cbn [cards hash seedHash top].
  repeat split.
  - apply cursor_after_none.
  - intros ms1 m ms2 -> Hm H2. apply (cursor_after_last 0 0 ms1 ms2 m Hm H2).
Qed.

Lemma new_Deck_decodes_pieces_witness :
  let s := JsString.join "-" (pieces 7 0 standard52) in
  ∃ d, new_Deck (λ s, s) (Some s) = Ok d
       ∧ cards d = JsArray.mk (Some <$> standard52) ∅
       ∧ hash d = content_hash (λ s, s) standard52
       ∧ seedHash d = ZERO_HASH
       ∧ (Forall (λ m, bracketed m = false) (JsString.split "-" s) → top d = 0)
       ∧ (∀ ms1 m ms2, JsString.split "-" s = ms1 ++ m :: ms2 →
            bracketed m = true → Forall (λ m, bracketed m = false) ms2 →
            top d = Z.of_nat (List.length ms1)).
Proof.
  apply (new_Deck_decodes_pieces (λ s, s)
           (JsString.join "-" (pieces 7 0 standard52)) standard52).
  - discriminate.
  - reflexivity.
  - apply decode_pieces_Forall2. vm_compute. reflexivity.
Defined.

(** X8: the constructor, given a string that is not empty and whose number
    of hyphens is not 51, so that it does not split into exactly 52 pieces,
    throws the error "Deck must contain 52 cards." and decodes nothing. *)
Theorem new_Deck_wrong_count sha (s : string) :
  s ≠ EmptyString →
  dashes s ≠ 51%nat →
  new_Deck sha (Some s) = Throw (Error "Deck must contain 52 cards.").
Proof.
  intros Hs Hd. rewrite (new_Deck_restore sha s Hs), split_length.
  destruct (Nat.eqb_spec (S (dashes s)) 52); [lia|reflexivity].
Qed.

Lemma new_Deck_wrong_count_witness :
  new_Deck (λ s, s) (Some "AC-2C-3C") = Throw (Error "Deck must contain 52 cards.").
Proof.
  apply (new_Deck_wrong_count (λ s, s) "AC-2C-3C").
  - discriminate.
  - simpl. lia.
Defined.

Lemma decode_pieces_first_error (ms1 ms2 : list string) (m : string) (e : exn) :
  Forall (λ p, ∃ c, fromString (unbracket p) = Ok c) ms1 →
  fromString (unbracket m) = Throw e →
  decode_pieces (ms1 ++ m :: ms2) = Throw e.
Proof.
  intros H1 Hm. induction H1 as [|p ms1 [c Hp] _ IH]; cbn [app decode_pieces].
  - rewrite Hm. reflexivity.
  - rewrite Hp, IH. reflexivity.
Qed.

(** X9: the constructor, given a string of 52 pieces, throws at the first
    piece that [fromString] rejects, with the error "Invalid card mnemonic: "
    followed by that piece without its enclosing brackets; the pieces after
    it are not looked at. *)
Theorem new_Deck_malformed_piece sha (s : string) (ms1 ms2 : list string) (m : string) :
  s ≠ EmptyString →
  JsString.split "-" s = ms1 ++ m :: ms2 →
  List.length (ms1 ++ m :: ms2) = 52%nat →
  Forall (λ p, ∃ c, fromString (unbracket p) = Ok c) ms1 →
  (∀ c, fromString (unbracket m) ≠ Ok c) →
  new_Deck sha (Some s)
    = Throw (Error ("Invalid card mnemonic: " +:+ unbracket m)).
Proof.
  intros Hs Hsplit Hlen H1 Hm.
  rewrite (new_Deck_restore sha s Hs), Hsplit, Hlen. cbn [Nat.eqb].
  destruct (fromString (unbracket m)) as [c|e] eqn:E; [destruct (Hm c eq_refl)|].
  rewrite (decode_pieces_first_error ms1 ms2 m e H1 E).
  rewrite (fromString_Throw _ _ E). reflexivity.
Qed.

Lemma new_Deck_malformed_piece_witness :
  new_Deck (λ s, s)
    (Some (JsString.join "-" (["AC"; "[1X]"] ++ replicate 50 "??")))
    = Throw (Error "Invalid card mnemonic: 1X").
Proof.
  apply (new_Deck_malformed_piece (λ s, s)
           (JsString.join "-" (["AC"; "[1X]"] ++ replicate 50 "??"))
           ["AC"] (replicate 50 "??") "[1X]").
  - discriminate.
  - reflexivity.
  - reflexivity.
  - repeat constructor. eexists. reflexivity.
  - intros c. discriminate.
Defined.

Lemma decode_pieces_error (ms : list string) (e : exn) :
  decode_pieces ms = Throw e →
  ∃ m, m ∈ ms ∧ e = Error ("Invalid card mnemonic: " +:+ unbracket m).
Proof.
  induction ms as [|m ms IH]; [discriminate|]. cbn [decode_pieces].
  destruct (fromString (unbracket m)) as [c|e'] eqn:Em.
  - destruct (decode_pieces ms) as [l|e']; [discriminate|].
    intros [= ->]. destruct (IH eq_refl) as (m' & Hin & He).
    exists m'. split; [right; exact Hin|exact He].
  - intros [= ->]. exists m. split; [left|]. eapply fromString_Throw, Em.
Qed.

(** X10: the constructor throws nothing but its two errors: when it does
    not return, the error is "Deck must contain 52 cards." or it is
    "Invalid card mnemonic: " followed by one of the pieces of the string,
    taken without its enclosing brackets. *)
Theorem new_Deck_errors sha (arg : option string) (e : exn) :
  new_Deck sha arg = Throw e →
  e = Error "Deck must contain 52 cards."
  ∨ ∃ s m, arg = Some s ∧ m ∈ JsString.split "-" s
           ∧ e = Error ("Invalid card mnemonic: " +:+ unbracket m).
Proof.
  destruct arg as [[|c s]|]; try (rewrite new_Deck_fresh; discriminate).
  - change (new_Deck sha (Some EmptyString)) with (new_Deck sha None).
    rewrite new_Deck_fresh. discriminate.
  - rewrite new_Deck_restore by discriminate.
    destruct (List.length _ =? 52)%nat; [|intros [= <-]; auto].
    destruct (decode_pieces (JsString.split "-" (String c s))) as [l|e'] eqn:E;
      [discriminate|].
    intros [= ->]. right. destruct (decode_pieces_error _ _ E) as (m & Hin & He).
    exists (String c s), m. auto.
Qed.

Lemma new_Deck_errors_witness :
  Error "Deck must contain 52 cards." = Error "Deck must contain 52 cards."
  ∨ ∃ s m, Some "KS-QS" = Some s ∧ m ∈ JsString.split "-" s
           ∧ Error "Deck must contain 52 cards."
             = Error ("Invalid card mnemonic: " +:+ unbracket m).
Proof. apply (new_Deck_errors (λ s, s) (Some "KS-QS")). reflexivity. Defined.

(** ** From a string to a deck and back *)

Lemma join_split s : JsString.join "-" (JsString.split "-" s) = s.
Proof.
  induction s as [|c s IH]; [reflexivity|]. cbn [JsString.split].
  destruct (Ascii.eqb_spec c "-") as [->|_].
  - destruct (JsString.split "-" s) as [|t ts] eqn:E.
    + pose proof (split_length s) as H. rewrite E in H. discriminate H.
    + rewrite join_cons, IH. reflexivity.
  - destruct (JsString.split "-" s) as [|t [|u ts]] eqn:E.
    + pose proof (split_length s) as H. rewrite E in H. discriminate H.
    + cbn in IH |- *. rewrite IH. reflexivity.
    + rewrite join_cons in IH. rewrite join_cons, <- IH. reflexivity.
Qed.

Lemma last_char_inv (s : string) :
  s ≠ EmptyString → ∃ x c, s = x +:+ String c EmptyString.
Proof.
  induction s as [|a s IH]; [congruence|]. intros _.
  destruct s as [|b s].
  - exists EmptyString, a. reflexivity.
  - destruct IH as (x & c & ->); [discriminate|]. exists (String a x), c. reflexivity.
Qed.

(** A piece the constructor takes as bracketed is its content between an
    opening and a closing bracket. *)
Lemma bracketed_inv (m : string) :
  bracketed m = true → "[" +:+ unbracket m +:+ "]" = m.
Proof.
  intros H. unfold unbracket. rewrite H.
  apply andb_true_iff in H as [Hs He].
  assert (Hne : m ≠ EmptyString) by (intros ->; discriminate Hs).
  destruct (last_char_inv m Hne) as (x & c & ->).
  assert (Hc : c = "]"%char).
  { unfold JsString.endsWith in He. apply andb_true_iff in He as [_ He].
    rewrite length_append in He. cbn [String.length] in He.
    rewrite Nat.add_sub in He.
    change 1%nat with (String.length (String c EmptyString)) in He at 1.
    rewrite substring_suffix in He. apply String.eqb_eq in He.
    injection He as ->. reflexivity. }
  subst c. destruct x as [|a x]; [vm_compute in Hs; discriminate Hs|].
  assert (Ha : a = "["%char).
  { unfold JsString.startsWith in Hs.
    change (String a x +:+ "]") with (String a (x +:+ "]")) in Hs.
    cbn [String.prefix] in Hs.
    destruct (ascii_dec "[" a) as [<-|]; [reflexivity|discriminate Hs]. }
  subst a. change (String "[" x +:+ "]") with ("[" +:+ x +:+ "]").
  rewrite bracketed_substring. reflexivity.
Qed.

Lemma pieces_app t i (l1 l2 : list Card) :
  pieces t i (l1 ++ l2) = pieces t i l1 ++ pieces t (i + List.length l1) l2.
Proof.
  revert i. induction l1 as [|c l1 IH]; intros i; cbn [app pieces List.length].
  - rewrite Nat.add_0_r. reflexivity.
  - rewrite IH.
    replace (i + S (List.length l1))%nat with (S i + List.length l1)%nat by lia.
    reflexivity.
Qed.

(** Cards decoded from pieces without brackets are written back as those
    pieces when the cursor is none of their indices. *)
Lemma pieces_plain t i (ms : list string) (l : list Card) :
  Forall2 (λ m c, fromString (unbracket m) = Ok c) ms l →
  Forall (λ m, bracketed m = false) ms →
  (t < Z.of_nat i ∨ Z.of_nat (i + List.length ms) ≤ t) →
  pieces t i l = ms.
Proof.
  intros H. revert i. induction H as [|m c ms l Hm _ IH]; intros i Hb Ht;
    [reflexivity|].
  inversion_clear Hb as [|? ? Hbm Hbms]. cbn [pieces List.length] in *.
  rewrite IH by (try assumption; lia). f_equal.
  unfold piece. destruct (Z.eqb_spec (Z.of_nat i) t); [lia|].
  rewrite (fromString_Ok_mnemonic _ _ Hm). unfold unbracket. rewrite Hbm.
  reflexivity.
Qed.

(** X11: when the constructor accepts a string in which exactly one piece
    is in brackets, [toString()] of the deck it built gives the same string
    back, whatever the spelling of the pieces. *)
Theorem toString_new_Deck sha (s : string) (d : Deck)
    (ms1 ms2 : list string) (m : string) :
  new_Deck sha (Some s) = Ok d →
  JsString.split "-" s = ms1 ++ m :: ms2 →
  bracketed m = true →
  Forall (λ p, bracketed p = false) ms1 →
  Forall (λ p, bracketed p = false) ms2 →
  toString d = Ok s.
Proof.
  intros Hnew Hsplit Hm H1 H2.
  assert (Hs : s ≠ EmptyString).
  { intros ->. destruct ms1 as [|? [|? ?]]; try discriminate Hsplit.
    injection Hsplit as <- _. discriminate Hm. }
  rewrite (new_Deck_restore sha s Hs) in Hnew.
  destruct (List.length _ =? 52)%nat; [|discriminate Hnew].
  destruct (decode_pieces (JsString.split "-" s)) as [l|e] eqn:E; [|discriminate Hnew].
  injection Hnew as <-.
  rewrite (toString_defined _ l) by reflexivity. cbn [top].
  rewrite <- (join_split s) at 2. do 2 f_equal.
  apply decode_pieces_Forall2 in E. rewrite Hsplit in E |- *.
  rewrite (cursor_after_last 0 0 ms1 ms2 m Hm H2). cbn [Nat.add].
  apply Forall2_app_inv_l in E as (l1 & l' & E1 & E2 & ->).
  apply Forall2_cons_inv_l in E2 as (c & l2 & Ec & E2 & ->).
  rewrite pieces_app. cbn [pieces]. f_equal; [|f_equal].
  - apply pieces_plain; [exact E1|exact H1|lia].
  - unfold piece. rewrite <- (Forall2_length _ _ _ E1), Nat.add_0_l, Z.eqb_refl.
    rewrite (fromString_Ok_mnemonic _ _ Ec). apply bracketed_inv, Hm.
  - apply pieces_plain; [exact E2|exact H2|].
    rewrite <- (Forall2_length _ _ _ E1). lia.
Qed.

Lemma toString_new_Deck_witness :
  let s := JsString.join "-" (["as"; "[010h]"] ++ replicate 50 "kC") in
  ∃ d, new_Deck (λ s, s) (Some s) = Ok d ∧ toString d = Ok s.
Proof.
  intros s.
  destruct (new_Deck (λ s, s) (Some s)) as [d|e] eqn:E;
    [|vm_compute in E; discriminate E].
  exists d. split; [reflexivity|].
  apply (toString_new_Deck (λ s, s) s d ["as"] (replicate 50 "kC") "[010h]").
  - exact E.
  - reflexivity.
  - reflexivity.
  - repeat constructor.
  - repeat constructor.
Defined.

(** X12: the string [toString()] gives determines the deck: two decks of
    52 decodable cards with the same string hold the same cards in the same
    order, and the same cursor when both cursors are in 0..51. *)
Theorem toString_inj (d1 d2 : Deck) (l1 l2 : list Card) :
  JsArray.elems (cards d1) = Some <$> l1 →
  JsArray.elems (cards d2) = Some <$> l2 →
  List.length l1 = 52%nat → List.length l2 = 52%nat →
  Forall decodable l1 → Forall decodable l2 →
  toString d1 = toString d2 →
  l1 = l2 ∧ (0 ≤ top d1 < 52 → 0 ≤ top d2 < 52 → top d1 = top d2).
Proof.
  intros E1 E2 Hl1 Hl2 Hd1 Hd2 H.
  rewrite (toString_defined d1 l1 E1), (toString_defined d2 l2 E2) in H.
  injection H as H.
  pose proof (new_Deck_pieces (λ s, s) (top d1) l1 Hl1 Hd1) as N1.
  pose proof (new_Deck_pieces (λ s, s) (top d2) l2 Hl2 Hd2) as N2.
  rewrite H, N2 in N1. injection N1 as Hc _ Ht.
  apply defined_inj in Hc. split; [congruence|].
  intros T1 T2. revert Ht. case_bounds.
Qed.

Lemma toString_inj_witness :
  standard52 = standard52 ∧ (0 ≤ 9 < 52 → 0 ≤ 9 < 52 → 9 = 9).
Proof.
  apply (toString_inj (set_top 9 (fresh (λ s, s)))
           (set_seedHash "x" (set_top 9 (fresh (λ s, s)))) standard52 standard52);
    try reflexivity; repeat constructor.
Defined.

(** ** More on shuffle *)

(** [shuffle] on a deck holding the 52 cards [l], with a seed of 52
    integers none of which is negative. *)
Lemma shuffle_defined_run sha random (d : Deck) (seed : list Z) (l : list Card) :
  JsArray.elems (cards d) = Some <$> l →
  List.length l = 52%nat →
  List.length seed = 52%nat →
  Forall (λ z, 0 ≤ z) seed →
  shuffle sha random (Some seed) d =
    (Ok tt,
     {| cards := JsArray.mk (Some <$> fisher_yates seed l) (JsArray.props (cards d));
        hash := content_hash sha (fisher_yates seed l);
        seedHash := sha (JsString.join "-" (JsString.Number_toString <$> seed));
        top := top d |}).
Proof.
  intros Hd Hl Hs Hseed. unfold shuffle. unfold bind at 1, this.
  destruct seed as [|x seed']; [discriminate Hs|].
  unfold JsArray.length. rewrite Hd, length_fmap, Hl, Hs. cbn [Nat.eqb negb].
  unfold bind at 1, update at 1. unfold bind at 1, update at 1.
  destruct d as [[es ps] h sh tp]. cbn [cards JsArray.elems] in Hd. subst es.
  unfold set_cards, set_seedHash. cbn [cards hash seedHash top].
  change (52 - 1)%nat with 51%nat.
  pose proof (shuffle_loop_defined (x :: seed') 51 l ps) as E.
  unfold fisher_yates. rewrite E by (try assumption; lia). clear E.
  generalize (foldl (fisher_yates_step (x :: seed')) l (reverse (seq 1 51))).
  intros l'. erewrite createHash_defined by reflexivity. reflexivity.
Qed.

(** An absent seed and an empty seed are replaced by the values drawn. *)
Lemma shuffle_generated sha random (d : Deck) (n : nat) :
  JsArray.length (cards d) = S n →
  shuffle sha random None d = shuffle sha random (Some (random <$> seq 0 (S n))) d
  ∧ shuffle sha random (Some []) d = shuffle sha random None d.
Proof.
  intros Hn. unfold shuffle, bind, this. rewrite Hn. split; reflexivity.
Qed.

(** X14: [shuffle()] without a seed, or with an empty one, on a deck
    holding 52 cards draws 52 values and behaves as [shuffle] supplied with
    them: when the draws are not negative (as those of
    [Math.floor(1000000 * Math.random())] are) it returns, the cards are
    permuted by the Fisher-Yates steps of the drawn seed, the hash is
    recomputed, the seed hash is the digest of the joined draws and the
    cursor is untouched. *)
Theorem shuffle_unseeded sha random (d : Deck) (l : list Card) :
  JsArray.elems (cards d) = Some <$> l →
  List.length l = 52%nat →
  (∀ k, 0 ≤ random k) →
  shuffle sha random (Some []) d = shuffle sha random None d
  ∧ shuffle sha random None d =
      (Ok tt,
       {| cards := JsArray.mk (Some <$> fisher_yates (random <$> seq 0 52) l)
                              (JsArray.props (cards d));
          hash := content_hash sha (fisher_yates (random <$> seq 0 52) l);
          seedHash := sha (JsString.join "-"
                             (JsString.Number_toString <$> (random <$> seq 0 52)));
          top := top d |}).
Proof.
  intros Hd Hl Hr.
  assert (Hn : JsArray.length (cards d) = 52%nat)
    by (unfold JsArray.length; rewrite Hd, length_fmap; exact Hl).
  destruct (shuffle_generated sha random d 51 Hn) as [Hnone Hempty].
  split; [exact Hempty|]. rewrite Hnone.
  apply shuffle_defined_run; try assumption.
  - rewrite length_fmap, length_seq. reflexivity.
  - apply Forall_fmap, Forall_forall. intros k _. apply Hr.
Qed.

Lemma shuffle_unseeded_witness :
  let random := λ k : nat, Z.of_nat (7 * k) in
  let d := fresh (λ s, s) in
  shuffle (λ s, s) random (Some []) d = shuffle (λ s, s) random None d
  ∧ shuffle (λ s, s) random None d =
      (Ok tt,
       {| cards := JsArray.mk (Some <$> fisher_yates (random <$> seq 0 52) standard52)
                              (JsArray.props (cards d));
          hash := content_hash (λ s, s) (fisher_yates (random <$> seq 0 52) standard52);
          seedHash := JsString.join "-"
                        (JsString.Number_toString <$> (random <$> seq 0 52));
          top := top d |}).
Proof.
  intros random d.
  apply (shuffle_unseeded (λ s, s) random d standard52).
  - reflexivity.
  - reflexivity.
  - intros k. unfold random. lia.
Defined.






Lemma toString_loop_undefined t i (es : list (option Card)) :
  (∀ l, es ≠ Some <$> l) → toString_loop t i es = Throw TypeError.
Proof.
  revert i. induction es as [|[c|] es IH]; intros i H; cbn [toString_loop].
  - destruct (H [] eq_refl).
  - rewrite IH; [reflexivity|]. intros l ->. apply (H (c :: l)). reflexivity.
  - reflexivity.
Qed.



Lemma shuffle_outcomes sha random (seed : option (list Z)) (d : Deck) :
  (∃ message, shuffle sha random seed d = (Throw (Error message), d))
  ∨ (∃ seed' h,
       shuffle sha random seed d =
         createHash sha
           (set_cards (shuffle_loop seed' (JsArray.length (cards d) - 1))
                      (set_seedHash h d))).
Proof.
  remember (shuffle sha random seed d) as r eqn:E.
  unfold shuffle, bind at 1, this in E. cbv beta iota zeta in E.
  destruct (negb _) in E.
  - left. eexists. exact E.
  - right. eexists _, _. rewrite E. unfold bind at 1, update at 1.
    unfold bind at 1, update at 1. reflexivity.
Qed.

(** X17: after [shuffle], whatever the deck and the seed: when it
    returned, [toString()] returns a string; when it threw an [Error] (the
    length check), the deck is as it was before the call; when it threw a
    [TypeError] (a slot was left undefined), [toString()] throws a
    [TypeError] too. *)
Theorem toString_after_shuffle sha random (seed : option (list Z)) (d : Deck) :
  match fst (shuffle sha random seed d) with
  | Ok _ => ∃ s, toString (snd (shuffle sha random seed d)) = Ok s
  | Throw (Error _) => snd (shuffle sha random seed d) = d
  | Throw TypeError => toString (snd (shuffle sha random seed d)) = Throw TypeError
  end.
Proof.
  destruct (shuffle_outcomes sha random seed d) as [[msg ->]|(seed' & h & ->)].
  - reflexivity.
  - set (d2 := set_cards _ _).
    destruct (createHash_cases sha d2) as [(l & El & ->)|C]; cbn [fst snd].
    + eexists. apply toString_defined. exact El.
    + rewrite C. cbn [fst snd]. unfold toString.
      rewrite toString_loop_undefined; [reflexivity|].
      intros l El. rewrite (createHash_defined sha d2 l El) in C. discriminate C.
Qed.

(** ** Every deck a program can hold *)

Lemma reachable_well_kept sha (d : Deck) : reachable sha d → well_kept sha d.
Proof.
  intros (arg & d0 & Hnew & Hrtc). apply new_Deck_well_kept in Hnew.
  induction Hrtc as [|x y z Hxy _ IH]; [exact Hnew|].
  apply IH. eapply call_well_kept; eassumption.
Qed.

(** X18: every deck built by the constructor and then used through any
    sequence of [shuffle], [getNext] and [deal] calls, with any arguments
    and whether or not the calls threw, has 52 slots; and whenever all its
    slots are defined, its cards are cards of the codec (decoding the
    mnemonic of each gives the card back) and its hash is the digest of
    their mnemonics joined by hyphens. *)
Theorem reachable_deck_invariant sha (d : Deck) :
  reachable sha d →
  JsArray.length (cards d) = 52%nat
  ∧ ∀ l, JsArray.elems (cards d) = Some <$> l →
         Forall decodable l
         ∧ hash d = sha (JsString.join "-" (mnemonic <$> l)).
Proof.
  intros (Hlen & Hdec & Hh)%reachable_well_kept. split; [exact Hlen|].
  intros l El. split; [|apply Hh, El].
  unfold contents in Hdec. rewrite El, omap_id_defined in Hdec.
  apply Forall_app in Hdec as [Hdec _]. exact Hdec.
Qed.

Lemma reachable_deck_invariant_witness :
  let sha := λ s : string, s in
  let d := snd (shuffle sha (λ _, 5) None (snd (deal 3 (fresh sha)))) in
  JsArray.length (cards d) = 52%nat
  ∧ ∀ l, JsArray.elems (cards d) = Some <$> l →
         Forall decodable l
         ∧ hash d = sha (JsString.join "-" (mnemonic <$> l)).
Proof.
  intros sha d. apply (reachable_deck_invariant sha d).
  exists None, (fresh sha). split; [reflexivity|].
  eapply rtc_l; [apply (call_deal sha 3)|].
  eapply rtc_l; [apply (call_shuffle sha (λ _, 5) None)|].
  apply rtc_refl.
Defined.

(** X19: a deck made by [new Deck()] and then used through any sequence of
    [shuffle], [getNext] and [deal] calls never loses or duplicates a card:
    the 52 standard cards stay in the array object, and whenever all slots
    are defined they hold exactly 52 cards forming a permutation of the
    standard deck. *)
Theorem fresh_deck_stays_full sha (d : Deck) :
  rtc (call sha) (fresh sha) d →
  conserved d
  ∧ ∀ l, JsArray.elems (cards d) = Some <$> l →
         cards d = JsArray.mk (Some <$> l) ∅ ∧ List.length l = 52%nat
         ∧ pairs l ≡ₚ pairs standard52.
Proof.
  intros Hc%fresh_stays_conserved. split; [exact Hc|].
  intros l El. destruct (conserved_defined d l Hc El) as (l' & Hcards & Hlen & Hfull).
  assert (l' = l) as ->.
  { rewrite Hcards in El. cbn [JsArray.elems] in El. apply defined_inj, El. }
  auto.
Qed.

Lemma fresh_deck_stays_full_witness :
  let sha := λ s : string, s in
  let seed := Some (replicate 51 3 ++ [-1]) in
  let d := snd (shuffle sha (λ _, 0) seed (snd (shuffle sha (λ _, 0) seed (fresh sha)))) in
  conserved d
  ∧ ∀ l, JsArray.elems (cards d) = Some <$> l →
         cards d = JsArray.mk (Some <$> l) ∅ ∧ List.length l = 52%nat
         ∧ pairs l ≡ₚ pairs standard52.
Proof.
  intros sha seed d. apply (fresh_deck_stays_full sha d).
  eapply rtc_l; [apply (call_shuffle sha (λ _, 0) seed)|].
  eapply rtc_l; [apply (call_shuffle sha (λ _, 0) seed)|].
  apply rtc_refl.
Defined.

(** ** The cursor and the value *)



(** X21: among the cards [fromString] returns with a rank in 1..13, the
    value is in 0..51 and identifies the card: two such cards with the same
    value have the same suit and the same rank, whatever the spelling they
    were decoded from. *)
Theorem value_identifies_card (m1 m2 : string) (c1 c2 : Card) :
  fromString m1 = Ok c1 → fromString m2 = Ok c2 →
  1 ≤ rank c1 ≤ 13 → 1 ≤ rank c2 ≤ 13 →
  0 ≤ value c1 ≤ 51
  ∧ (value c1 = value c2 → suit c1 = suit c2 ∧ rank c1 = rank c2).
Proof.
  intros E1 E2 R1 R2.
  destruct (fromString_cases m1) as [(g1 & g2 & s1 & _ & Hs1 & F1)|[_ F1]];
    rewrite F1 in E1; [|discriminate E1].
  destruct (fromString_cases m2) as [(h1 & h2 & s2 & _ & Hs2 & F2)|[_ F2]];
    rewrite F2 in E2; [|discriminate E2].
  injection E1 as <-. injection E2 as <-. cbn [suit rank value] in *. lia.
Qed.

Lemma value_identifies_card_witness :
  0 ≤ 35 ≤ 51 ∧ (35 = 35 → SUIT.HEARTS = SUIT.HEARTS ∧ 10 = 10).
Proof.
  apply (value_identifies_card "10h" "010H" (mkCard SUIT.HEARTS 10 35 "10h")
           (mkCard SUIT.HEARTS 10 35 "010H")); try reflexivity; simpl; lia.
Defined.
